(** * The Android lightbox image item: gesture-to-transform arithmetic

    A shallow embedding of
    [src/view/com/lightbox/ImageViewing/components/ImageItem/ImageItem.android.tsx].

    Numbers.  A JavaScript [number] is modelled as an exact rational [Q];
    equality of numbers is [Qeq] ([==]) and the strict comparison [!==] is the
    negation of [Qeq_bool].  Binary floating point rounding, [NaN] and the
    infinities are outside the model: where the source divides, the model
    divides in [Q], and a theorem whose content depends on a quotient
    assumes that the divisor (a side of the screen, the image aspect) is not
    zero.

    Shared values.  Each [useSharedValue] cell is a field of the record
    [State]; a worklet that assigns to [cell.value] is a function returning
    the updated record.  [withSpring] animates a cell towards its argument;
    the model stores the value the animation settles on. *)

From Stdlib Require Import QArith Qminmax Qround Qabs Lqa Lia ZArith Bool List Morphisms.
From Stdlib Require String.
Import ListNotations.
Open Scope Q_scope.

(** ** Numbers *)

(** [a !== b] on numbers. *)
Definition neqb (a b : Q) : bool := negb (Qeq_bool a b).

(** [a > b] on numbers. *)
Definition gtb (a b : Q) : bool := negb (Qle_bool a b).

(** [Math.max(a, b, c)]. *)
Definition Qmax3 (a b c : Q) : Q := Qmax (Qmax a b) c.

(** The numbers that pass the test [if (!v) return]: [undefined] and [0]
    do not. *)
Definition truthyNumber (v : option Q) : option Q :=
  match v with
  | Some q => if Qeq_bool q 0 then None else Some q
  | None => None
  end.

(** ** Plain data of the component *)

(** [Position] of [../../@types]: a point or a displacement. *)
Record Position : Set := mkPosition { x : Q; y : Q }.

(** [Dimensions] of [../../@types], also the shape of [Dimensions.get]. *)
Record Dimensions : Set := mkDimensions { width : Q; height : Q }.

(** ** Transforms *)

Module Transforms.

(** Modelled from the spec: the module [../../transforms] ([TransformMatrix],
    [createTransform], [prependPan], [prependPinch], [prependTransform],
    [readTransform], [applyRounding]) is not among the sources.  The spec
    describes a transform as the triple (translateX, translateY, scale) of a
    uniform scaling followed by a translation, with identity (0, 0, 1), and
    each [prepend] operation as a matrix product in which the new operation
    is applied to a point before the operations already in the transform. *)
Record TransformMatrix : Set := mkTransform {
  translateX : Q;
  translateY : Q;
  scale : Q
}.

(** Modelled from the spec: [createTransform] returns the neutral transform. *)
Definition createTransform : TransformMatrix := mkTransform 0 0 1.

(** Modelled from the spec: [readTransform] extracts the scalar components,
    in the order the source destructures them. *)
Definition readTransform (t : TransformMatrix) : Q * Q * Q :=
  (translateX t, translateY t, scale t).

(** Modelled from the spec: the product [t * translate(dx, dy)]; the
    displacement is scaled by what [t] already holds. *)
Definition prependTranslate (t : TransformMatrix) (dx dy : Q) : TransformMatrix :=
  mkTransform (translateX t + scale t * dx) (translateY t + scale t * dy) (scale t).

(** Modelled from the spec: the product [t * scale(value)]. *)
Definition prependScale (t : TransformMatrix) (value : Q) : TransformMatrix :=
  mkTransform (translateX t) (translateY t) (scale t * value).

(** Modelled from the spec: [prependPan] composes a translation. *)
Definition prependPan (t : TransformMatrix) (translation : Position) : TransformMatrix :=
  prependTranslate t (x translation) (y translation).

(** Modelled from the spec: [prependPinch] scales about [origin] (move the
    origin to the centre, scale, move back) and adds the pinch translation. *)
Definition prependPinch (t : TransformMatrix) (s : Q) (origin translation : Position)
  : TransformMatrix :=
  let t1 := prependTranslate t (x translation) (y translation) in
  let t2 := prependTranslate t1 (x origin) (y origin) in
  let t3 := prependScale t2 s in
  prependTranslate t3 (- x origin) (- y origin).

(** Modelled from the spec: [prependTransform ta tb] is the product
    [ta * tb]. *)
Definition prependTransform (ta tb : TransformMatrix) : TransformMatrix :=
  mkTransform (translateX ta + scale ta * translateX tb)
              (translateY ta + scale ta * translateY tb)
              (scale ta * scale tb).

(** Modelled from the spec: rounding to the nearest multiple of [1/g], a tie
    going up as [Math.round] does. *)
Definition snap (g : positive) (v : Q) : Q :=
  inject_Z (Qfloor (v * inject_Z (Zpos g) + (1 # 2))) / inject_Z (Zpos g).

(** Modelled from the spec: [applyRounding] snaps the translation and the
    scale.  The spec does not give the grids, so they are parameters:
    translations snap to multiples of [1/translationGrid], the scale to
    multiples of [1/scaleGrid]. *)
Definition applyRounding (translationGrid scaleGrid : positive) (t : TransformMatrix)
  : TransformMatrix :=
  mkTransform (snap translationGrid (translateX t))
              (snap translationGrid (translateY t))
              (snap scaleGrid (scale t)).

End Transforms.
Import Transforms.


(** ** Constants and events *)

Definition MIN_DOUBLE_TAP_SCALE : Q := 2.
Definition MAX_ORIGINAL_IMAGE_ZOOM : Q := 2.

Definition initialTransform : TransformMatrix := createTransform.

(** What the handlers read of a pinch event. *)
Record PinchEvent : Set := mkPinchEvent { focalX : Q; focalY : Q; e_scale : Q }.

(** What the handlers read of a pan event. *)
Record PanEvent : Set := mkPanEvent { translationX : Q; translationY : Q }.

(** What the handlers read of a tap event. *)
Record TapEvent : Set := mkTapEvent { absoluteX : Q; absoluteY : Q }.

(** The shared values of one [ImageItem]. *)
Record State : Set := mkState {
  committedTransform : TransformMatrix;
  panTranslation : Position;
  pinchOrigin : Position;
  pinchScale : Q;
  pinchTranslation : Position
}.

(** The values given to [useSharedValue]. *)
Definition initialState : State :=
  mkState initialTransform (mkPosition 0 0) (mkPosition 0 0) 1 (mkPosition 0 0).

Definition set_committedTransform (v : TransformMatrix) (st : State) : State :=
  mkState v (panTranslation st) (pinchOrigin st) (pinchScale st) (pinchTranslation st).

Definition set_panTranslation (v : Position) (st : State) : State :=
  mkState (committedTransform st) v (pinchOrigin st) (pinchScale st) (pinchTranslation st).

Definition set_pinchOrigin (v : Position) (st : State) : State :=
  mkState (committedTransform st) (panTranslation st) v (pinchScale st) (pinchTranslation st).

Definition set_pinchScale (v : Q) (st : State) : State :=
  mkState (committedTransform st) (panTranslation st) (pinchOrigin st) v (pinchTranslation st).

Definition set_pinchTranslation (v : Position) (st : State) : State :=
  mkState (committedTransform st) (panTranslation st) (pinchOrigin st) (pinchScale st) v.

(** A call handed to the JS thread by [runOnJS]. *)
Inductive JSCall : Set :=
| SetIsScaled (isScaled : bool)
| OnZoom (isZoomed : bool)
| OnTap.

(** [withSpring(value, {overshootClamping: true})]: the value the spring
    settles on.  The values the cell holds while the spring runs are not
    modelled: what is proved of a tap is proved of the transform the tap
    aims at, and no statement lets a pinch or a pan follow a tap. *)
Definition withClampedSpring (value : TransformMatrix) : TransformMatrix := value.

(** [clampTranslation]: how far the user may pan, and the translation
    constrained to it. *)
Definition clampTranslation (value scaledSize screenSize : Q) : Q :=
  let panDistance := Qmax 0 ((scaledSize - screenSize) / 2) in
  let clampedValue := Qmin (Qmax (- panDistance) value) panDistance in
  clampedValue.

(** Sample devices and images, used where a statement is evaluated. *)
Definition squareWindow : Dimensions := mkDimensions 1000 1000.
Definition tallWindow : Dimensions := mkDimensions 1000 2000.
Definition tallScreen : Dimensions := mkDimensions 1000 2100.
Definition largeImage : Dimensions := mkDimensions 2000 1000.
Definition smallImage : Dimensions := mkDimensions 250 500.

Section ImageItem.

(** [Dimensions.get('window')] and [Dimensions.get('screen')]. *)
Variables windowDim screenDim : Dimensions.

(** The result of [useImageDimensions]: both are [undefined] until the
    image's metadata is known. *)
Variable imageAspect : option Q.
Variable imageDimensions : option Dimensions.

(** The grids of [applyRounding]. *)
Variables translationGrid scaleGrid : positive.

Definition statusBarHeight : Q := height windowDim - height screenDim.

Definition SCREEN : Dimensions :=
  mkDimensions (width windowDim) (height windowDim + statusBarHeight).

Definition getScaledDimensions (imageAspect scale : Q) : Dimensions :=
  let screenAspect := width SCREEN / height SCREEN in
  let isLandscape := gtb imageAspect screenAspect in
  if isLandscape then
    mkDimensions (scale * width SCREEN) ((scale * width SCREEN) / imageAspect)
  else
    mkDimensions (scale * height SCREEN * imageAspect) (scale * height SCREEN).

Definition getExtraTranslationToStayInBounds (candidateTransform : TransformMatrix)
  : Q * Q :=
  match truthyNumber imageAspect with
  | None => (0, 0)
  | Some imageAspect =>
      let '(nextTranslateX, nextTranslateY, nextScale) :=
        readTransform candidateTransform in
      let scaledDimensions := getScaledDimensions imageAspect nextScale in
      let clampedTranslateX :=
        clampTranslation nextTranslateX (width scaledDimensions) (width SCREEN) in
      let clampedTranslateY :=
        clampTranslation nextTranslateY (height scaledDimensions) (height SCREEN) in
      let dx := clampedTranslateX - nextTranslateX in
      let dy := clampedTranslateY - nextTranslateY in
      (dx, dy)
  end.

(** *** Pinch *)

Definition pinch_onStart (e : PinchEvent) (st : State) : State :=
  set_pinchOrigin
    (mkPosition (focalX e - width SCREEN / 2) (focalY e - height SCREEN / 2)) st.

(** The locals of [pinch.onChange] that bound the pinch. *)
Definition maxCommittedScaleOf (dims : Dimensions) : Q :=
  (width dims / width SCREEN) * MAX_ORIGINAL_IMAGE_ZOOM.

Definition minPinchScaleOf (committedScale : Q) : Q := 1 / committedScale.

Definition maxPinchScaleOf (dims : Dimensions) (committedScale : Q) : Q :=
  maxCommittedScaleOf dims / committedScale.

Definition nextPinchScaleOf (dims : Dimensions) (committedScale eScale : Q) : Q :=
  Qmin (Qmax (minPinchScaleOf committedScale) eScale)
       (maxPinchScaleOf dims committedScale).

Definition pinch_onChange (e : PinchEvent) (st : State) : State :=
  match imageDimensions with
  | None => st
  | Some dims =>
      let '(_, _, committedScale) := readTransform (committedTransform st) in
      let nextPinchScale := nextPinchScaleOf dims committedScale (e_scale e) in
      let st := set_pinchScale nextPinchScale st in
      let t := createTransform in
      let t := prependPan t (panTranslation st) in
      let t := prependPinch t nextPinchScale (pinchOrigin st) (pinchTranslation st) in
      let t := prependTransform t (committedTransform st) in
      let '(dx, dy) := getExtraTranslationToStayInBounds t in
      if neqb dx 0 || neqb dy 0 then
        set_pinchTranslation
          (mkPosition (x (pinchTranslation st) + dx) (y (pinchTranslation st) + dy)) st
      else st
  end.

Definition pinch_onEnd (st : State) : State :=
  let t := createTransform in
  let t := prependPinch t (pinchScale st) (pinchOrigin st) (pinchTranslation st) in
  let t := prependTransform t (committedTransform st) in
  let t := applyRounding translationGrid scaleGrid t in
  let st := set_committedTransform t st in
  let st := set_pinchScale 1 st in
  let st := set_pinchOrigin (mkPosition 0 0) st in
  set_pinchTranslation (mkPosition 0 0) st.

(** *** Pan *)

Definition pan_onChange (e : PanEvent) (st : State) : State :=
  match imageDimensions with
  | None => st
  | Some _ =>
      let nextPanTranslation := mkPosition (translationX e) (translationY e) in
      let t := createTransform in
      let t := prependPan t nextPanTranslation in
      let t := prependPinch t (pinchScale st) (pinchOrigin st) (pinchTranslation st) in
      let t := prependTransform t (committedTransform st) in
      let '(dx, dy) := getExtraTranslationToStayInBounds t in
      let nextPanTranslation :=
        mkPosition (x nextPanTranslation + dx) (y nextPanTranslation + dy) in
      set_panTranslation nextPanTranslation st
  end.

Definition pan_onEnd (st : State) : State :=
  let t := createTransform in
  let t := prependPan t (panTranslation st) in
  let t := prependTransform t (committedTransform st) in
  let t := applyRounding translationGrid scaleGrid t in
  let st := set_committedTransform t st in
  set_panTranslation (mkPosition 0 0) st.

(** *** Taps *)

Definition singleTap_onEnd (st : State) : State * list JSCall :=
  let '(_, _, committedScale) := readTransform (committedTransform st) in
  let st :=
    if neqb committedScale 1 then
      let t := createTransform in
      set_committedTransform (withClampedSpring t) st
    else st in
  (st, [OnTap]).

(** The locals of [doubleTap.onEnd] that choose the scale to zoom to. *)
Definition candidateScaleOf (imageAspect : Q) : Q :=
  let screenAspect := width SCREEN / height SCREEN in
  Qmax3 (imageAspect / screenAspect) (screenAspect / imageAspect) MIN_DOUBLE_TAP_SCALE.

Definition doubleTapScaleOf (imageAspect : Q) (dims : Dimensions) : Q :=
  let candidateScale := candidateScaleOf imageAspect in
  let maxScale := (width dims / width SCREEN) * MAX_ORIGINAL_IMAGE_ZOOM in
  Qmin candidateScale maxScale.

Definition doubleTap_onEnd (e : TapEvent) (st : State) : State :=
  match imageDimensions, truthyNumber imageAspect with
  | Some dims, Some imageAspect =>
      let '(_, _, committedScale) := readTransform (committedTransform st) in
      if neqb committedScale 1 then
        let t := createTransform in
        set_committedTransform (withClampedSpring t) st
      else
        let scale := doubleTapScaleOf imageAspect dims in
        let candidateTransform := createTransform in
        let origin :=
          mkPosition (absoluteX e - width SCREEN / 2) (absoluteY e - height SCREEN / 2) in
        let candidateTransform :=
          prependPinch candidateTransform scale origin (mkPosition 0 0) in
        let '(dx, dy) := getExtraTranslationToStayInBounds candidateTransform in
        let finalTransform := createTransform in
        let finalTransform := prependPinch finalTransform scale origin (mkPosition dx dy) in
        set_committedTransform (withClampedSpring finalTransform) st
  | _, _ => st
  end.

(** *** The reaction that tracks scaled rendering *)

(** The first function given to [useAnimatedReaction]. *)
Definition isScaledOf (st : State) : bool :=
  if neqb (pinchScale st) 1 then true
  else
    let '(_, _, committedScale) := readTransform (committedTransform st) in
    if neqb committedScale 1 then true else false.

Definition handleZoom (nextIsScaled : bool) : list JSCall :=
  [SetIsScaled nextIsScaled; OnZoom nextIsScaled].

(** [nextIsScaled !== prevIsScaled]; the previous result is [null] ([None])
    the first time the reaction runs. *)
Definition differs (nextIsScaled : bool) (prevIsScaled : option bool) : bool :=
  match prevIsScaled with
  | None => true
  | Some p => negb (Bool.eqb nextIsScaled p)
  end.

(** The second function given to [useAnimatedReaction]. *)
Definition reaction (nextIsScaled : bool) (prevIsScaled : option bool) : list JSCall :=
  if differs nextIsScaled prevIsScaled then handleZoom nextIsScaled else [].

(** [useAnimatedReaction] itself: each evaluation prepares the value in the
    current state and reacts to it and to the value of the evaluation
    before. *)
Fixpoint runReaction (prev : option bool) (sts : list State) : list JSCall :=
  match sts with
  | [] => []
  | st :: rest =>
      let next := isScaledOf st in
      reaction next prev ++ runReaction (Some next) rest
  end.

(** The arguments of the [onZoom] calls of a trace, in order. *)
Fixpoint onZoomArgs (calls : list JSCall) : list bool :=
  match calls with
  | [] => []
  | OnZoom b :: rest => b :: onZoomArgs rest
  | _ :: rest => onZoomArgs rest
  end.

(** No two neighbours of the list are equal. *)
Fixpoint flips (l : list bool) : Prop :=
  match l with
  | a :: ((b :: _) as tl) => a <> b /\ flips tl
  | _ => True
  end.

(** *** Pinch gestures as the gesture runtime delivers them *)

(** One pinch: the start event, the change events, then the end. *)
Record PinchGesture : Set := mkPinchGesture {
  pg_start : PinchEvent;
  pg_changes : list PinchEvent
}.

Definition runPinch (g : PinchGesture) (st : State) : State :=
  pinch_onEnd
    (fold_left (fun s e => pinch_onChange e s) (pg_changes g)
               (pinch_onStart (pg_start g) st)).

Definition runPinches (gs : list PinchGesture) (st : State) : State :=
  fold_left (fun s g => runPinch g s) gs st.

(** The committed scale of a state. *)
Definition committedScaleOf (st : State) : Q := scale (committedTransform st).

(** What holds of the state while one pinch is in progress: the committed
    transform is the one [ct] the pinch started from, and the pinch scale is
    neutral or brings the committed scale between the bounds. *)
Definition duringPinchOf (dims : Dimensions) (ct : TransformMatrix) (s : State) : Prop :=
  committedTransform s = ct /\
  (pinchScale s == 1 \/ 1 <= pinchScale s * scale ct <= maxCommittedScaleOf dims).

(** What holds between pinches: the pinch scale is neutral, and the
    committed scale is on the grid of the rounding, at least 1 and at most
    the rounding of the greatest committed scale. *)
Definition atRestAfterPinchOf (dims : Dimensions) (s : State) : Prop :=
  pinchScale s == 1 /\
  1 <= committedScaleOf s <= snap scaleGrid (maxCommittedScaleOf dims) /\
  snap scaleGrid (committedScaleOf s) == committedScaleOf s.

End ImageItem.

(** ** What is displayed, and whole pan gestures *)

(** The transform [useAnimatedStyle] builds: the active adjustments on top
    of the committed transform. *)
Definition animatedTransform (st : State) : TransformMatrix :=
  let t := createTransform in
  let t := prependPan t (panTranslation st) in
  let t := prependPinch t (pinchScale st) (pinchOrigin st) (pinchTranslation st) in
  let t := prependTransform t (committedTransform st) in
  t.

(** The [translateX], [translateY] and [scale] of the animated style. *)
Definition animatedStyle (st : State) : Q * Q * Q :=
  readTransform (animatedTransform st).

(** Two transforms with the same components. *)
Definition sameTransform (t u : TransformMatrix) : Prop :=
  translateX t == translateX u /\ translateY t == translateY u /\ scale t == scale u.

Section Display.

Variables windowDim screenDim : Dimensions.
Variable imageAspect : option Q.
Variable imageDimensions : option Dimensions.
Variables translationGrid scaleGrid : positive.

(** The transform keeps the image of aspect [aspect] within the edges: on
    each axis the translation is at most the distance [clampTranslation]
    allows at the scale of the transform. *)
Definition inBounds (aspect : Q) (t : TransformMatrix) : Prop :=
  let d := getScaledDimensions windowDim screenDim aspect (scale t) in
  Qabs (translateX t)
    <= Qmax 0 ((width d - width (SCREEN windowDim screenDim)) / 2) /\
  Qabs (translateY t)
    <= Qmax 0 ((height d - height (SCREEN windowDim screenDim)) / 2).

(** One pan as the gesture runtime delivers it: the change events, then the
    end. *)
Definition runPan (changes : list PanEvent) (st : State) : State :=
  pan_onEnd translationGrid scaleGrid
    (fold_left
       (fun s e => pan_onChange windowDim screenDim imageAspect imageDimensions e s)
       changes st).

End Display.

(** ** Calls of the pinch and pan handlers in any order *)

(** A call of one of the handlers of the pinch and of the pan, which
    [Gesture.Simultaneous] lets interleave. *)
Inductive PinchPanCall : Set :=
| PinchStart (e : PinchEvent)
| PinchChange (e : PinchEvent)
| PinchEnd
| PanChange (e : PanEvent)
| PanEnd.

Section Simultaneous.

Variables windowDim screenDim : Dimensions.
Variable imageAspect : option Q.
Variable imageDimensions : option Dimensions.
Variables translationGrid scaleGrid : positive.

Definition handleCall (c : PinchPanCall) (st : State) : State :=
  match c with
  | PinchStart e => pinch_onStart windowDim screenDim e st
  | PinchChange e => pinch_onChange windowDim screenDim imageAspect imageDimensions e st
  | PinchEnd => pinch_onEnd translationGrid scaleGrid st
  | PanChange e => pan_onChange windowDim screenDim imageAspect imageDimensions e st
  | PanEnd => pan_onEnd translationGrid scaleGrid st
  end.

(** The calls one after the other, in the order they are made. *)
Definition handleCalls (cs : list PinchPanCall) (st : State) : State :=
  fold_left (fun s c => handleCall c s) cs st.

(** What holds after every call: the committed scale is on the grid of the
    rounding, at least 1 and at most the rounding of the greatest committed
    scale, and the pinch scale is neutral or brings the committed scale
    between the bounds. *)
Definition zoomWithinOf (dims : Dimensions) (s : State) : Prop :=
  snap scaleGrid (committedScaleOf s) == committedScaleOf s /\
  1 <= committedScaleOf s <= snap scaleGrid (maxCommittedScaleOf windowDim screenDim dims) /\
  (pinchScale s == 1 \/
   1 <= pinchScale s * committedScaleOf s <= maxCommittedScaleOf windowDim screenDim dims).

End Simultaneous.

(** ** The screen of a mute list *)

Module ProfileList.

Import String.
Local Open Scope string_scope.

(** What the screen reads of [list.list.viewer]. *)
Record ViewerState : Set := mkViewerState { muted : option bool }.

(** What the screen reads of [list.list]. *)
Record ListView : Set := mkListView { viewer : option ViewerState }.

(** What the screen reads of a [ListModel]; [list_view] is its field
    [list]. *)
Record ListModel : Set := mkListModel {
  uri : string;
  list_view : option ListView;
  isOwner : bool
}.

(** The uri given to [new ListModel]. *)
Definition listUri (name rkey : string) : string :=
  "at://" ++ name ++ "/app.bsky.graph.list/" ++ rkey.

(** [list.list?.viewer?.muted] as a condition. *)
Definition isMuted (l : ListModel) : bool :=
  match list_view l with
  | Some v =>
      match viewer v with
      | Some w => match muted w with Some b => b | None => false end
      | None => false
      end
  | None => false
  end.

(** The calls the handlers make on their collaborators, in order. *)
Inductive Effect : Set :=
| ListUnsubscribe
| ListSubscribe
| SubscribeMuteList (list_uri : string)
| ListDelete
| ListRefresh
| ToastShow (message : string)
| LogError (message : string)
| OpenModal (name : string)
| GoBack
| Navigate (route : string).

(** Whether each awaited call resolves ([true]) or rejects. *)
Record Remote : Set := mkRemote {
  unsubscribe_ok : bool;
  subscribe_ok : bool;
  subscribeMuteList_ok : bool;
  delete_ok : bool
}.

(** An asynchronous computation: the calls it made, and its value unless it
    threw. *)
Definition Async (A : Type) : Type := (list Effect * option A)%type.

Definition ret {A : Type} (a : A) : Async A := (nil, Some a).

Definition bind {A B : Type} (m : Async A) (k : A -> Async B) : Async B :=
  match m with
  | (tr, Some a) => let '(tr', r) := k a in (List.app tr tr', r)
  | (tr, None) => (tr, None)
  end.

(** [try { body } catch (err) { handler }]. *)
Definition tryCatch {A : Type} (body handler : Async A) : Async A :=
  match body with
  | (tr, None) => let '(tr', r) := handler in (List.app tr tr', r)
  | (tr, Some a) => (tr, Some a)
  end.

(** A call that resolves or rejects; one that cannot reject. *)
Definition await (e : Effect) (ok : bool) : Async unit :=
  (cons e nil, if ok then Some tt else None).

Definition perform (e : Effect) : Async unit := (cons e nil, Some tt).

Definition toastUnsubscribed : string := "Unsubscribed from the mute list".
Definition toastSubscribed : string := "Subscribed to the mute list".
Definition toastFailed : string :=
  "There was an an issue updating your subscription, please check your internet connection and try again.".
Definition logFailed : string := "Failed up update subscription".

Definition onToggleSubscribed (remote : Remote) (l : ListModel) : Async unit :=
  tryCatch
    (if isMuted l then
       bind (await ListUnsubscribe (unsubscribe_ok remote)) (fun _ =>
       perform (ToastShow toastUnsubscribed))
     else
       bind (await ListSubscribe (subscribe_ok remote)) (fun _ =>
       bind (await (SubscribeMuteList (uri l)) (subscribeMuteList_ok remote)) (fun _ =>
       perform (ToastShow toastSubscribed))))
    (bind (perform (ToastShow toastFailed)) (fun _ =>
     perform (LogError logFailed))).

(** [onSave] of the modal [onPressEditList] opens. *)
Definition onSave : Async unit := perform ListRefresh.

Definition onPressEditList : Async unit := perform (OpenModal "create-or-edit-mute-list").

(** [onPressConfirm] of the modal [onPressDeleteList] opens;
    [canGoBack] is the answer of [navigation.canGoBack()]. *)
Definition onPressConfirm (remote : Remote) (canGoBack : bool) : Async unit :=
  bind (await ListDelete (delete_ok remote)) (fun _ =>
  if canGoBack then perform GoBack else perform (Navigate "Home")).

Definition onPressDeleteList : Async unit := perform (OpenModal "confirm").

(** The handlers a button can be given. *)
Inductive Handler : Set :=
| PressEditList
| PressDeleteList
| ToggleSubscribed.

Record Button : Set := mkButton {
  button_type : string;
  label : string;
  onPress : Handler
}.

(** [cond && <element/>] as a child: nothing when the condition is false. *)
Definition renderIf (cond : bool) (b : Button) : list Button :=
  if cond then cons b nil else nil.

(** The children of the view [renderHeaderBtn] returns. *)
Definition renderHeaderBtn (l : ListModel) : list Button :=
  List.app (renderIf (isOwner l && false) (mkButton "default" "Edit List" PressEditList))
 (List.app (renderIf (isOwner l) (mkButton "default" "Delete List" PressDeleteList))
           (cons (if isMuted l
                  then mkButton "inverted" "Unsubscribe" ToggleSubscribed
                  else mkButton "primary" "Subscribe & Mute" ToggleSubscribed)
                 nil)).

(** The calls of a trace that show a toast. *)
Definition isToast (e : Effect) : bool :=
  match e with ToastShow _ => true | _ => false end.

(** The calls of a trace that leave the screen. *)
Definition isNavigation (e : Effect) : bool :=
  match e with GoBack | Navigate _ => true | _ => false end.

Definition labels (bs : list Button) : list string := List.map label bs.

(** A list of one's own that is not subscribed to, and a remote at which
    every call resolves. *)
Definition sampleList : ListModel :=
  mkListModel (listUri "alice.test" "3jui7kd2z") (Some (mkListView None)) true.

Definition sampleRemote : Remote := mkRemote true true true true.

End ProfileList.

(** Sample states, used where a statement is evaluated. *)
Definition pinchingState : State :=
  mkState (mkTransform 10 20 2) (mkPosition 0 0) (mkPosition 100 (-50))
          (3 # 2) (mkPosition 7 9).

Definition panningState : State :=
  mkState (mkTransform 10 20 2) (mkPosition 33 (-44)) (mkPosition 0 0)
          1 (mkPosition 0 0).

(** * Properties *)

(** ** Numbers *)

Lemma neqb_true (a b : Q) : neqb a b = true <-> ~ a == b.
Proof.
  unfold neqb. rewrite negb_true_iff. split.
  - intros H. apply Qeq_bool_neq. exact H.
  - intros H. destruct (Qeq_bool a b) eqn:E; [|reflexivity].
    apply Qeq_bool_iff in E. contradiction.
Qed.

Lemma neqb_false (a b : Q) : neqb a b = false <-> a == b.
Proof.
  unfold neqb. rewrite negb_false_iff. apply Qeq_bool_iff.
Qed.

Lemma gtb_true (a b : Q) : gtb a b = true <-> b < a.
Proof.
  unfold gtb. rewrite negb_true_iff. split.
  - intros H. apply Qnot_le_lt. intros L. apply Qle_bool_iff in L. congruence.
  - intros H. destruct (Qle_bool a b) eqn:E; [|reflexivity].
    apply Qle_bool_iff in E. lra.
Qed.

Lemma gtb_false (a b : Q) : gtb a b = false <-> a <= b.
Proof.
  unfold gtb. rewrite negb_false_iff. apply Qle_bool_iff.
Qed.

Lemma truthyNumber_Some (v : option Q) (a : Q) :
  truthyNumber v = Some a <-> v = Some a /\ ~ a == 0.
Proof.
  unfold truthyNumber. destruct v as [q|].
  - destruct (Qeq_bool q 0) eqn:E.
    + split; [discriminate|]. intros [H N]. inversion H; subst.
      apply Qeq_bool_iff in E. contradiction.
    + split.
      * intros H. inversion H; subst. split; [reflexivity|].
        apply Qeq_bool_neq. exact E.
      * intros [H _]. exact H.
  - split; [discriminate|]. intros [H _]. discriminate.
Qed.

(** Names a [Qmax] or [Qmin] of the goal and keeps only its specification,
    innermost first, so that linear arithmetic can finish. *)
Ltac name_minmax :=
  repeat match goal with
  | |- context [Qmax ?a ?b] =>
      lazymatch a with context [Qmax _ _] => fail | context [Qmin _ _] => fail | _ => idtac end;
      lazymatch b with context [Qmax _ _] => fail | context [Qmin _ _] => fail | _ => idtac end;
      let m := fresh "m" in
      generalize (Q.max_spec a b); generalize (Qmax a b); intros m ?
  | |- context [Qmin ?a ?b] =>
      lazymatch a with context [Qmax _ _] => fail | context [Qmin _ _] => fail | _ => idtac end;
      lazymatch b with context [Qmax _ _] => fail | context [Qmin _ _] => fail | _ => idtac end;
      let m := fresh "m" in
      generalize (Q.min_spec a b); generalize (Qmin a b); intros m ?
  end.

(** ** Transforms *)

(** The laws the spec states of the transforms hold of their model: the
    identity is neutral for the product on both sides (up to [==] on the
    components), and a pinch about the centre of the viewport with no pinch
    translation introduces no translation. *)
Lemma prependTransform_identity (t : TransformMatrix) :
  let l := prependTransform createTransform t in
  let r := prependTransform t createTransform in
  (translateX l == translateX t /\ translateY l == translateY t /\ scale l == scale t) /\
  (translateX r == translateX t /\ translateY r == translateY t /\ scale r == scale t).
Proof.
  cbv zeta. unfold prependTransform, createTransform. cbn [translateX translateY scale].
  repeat split; ring.
Qed.

Lemma prependPinch_about_centre (s : Q) :
  let t := prependPinch createTransform s (mkPosition 0 0) (mkPosition 0 0) in
  translateX t == 0 /\ translateY t == 0 /\ scale t == s.
Proof.
  cbv zeta. unfold prependPinch, prependTranslate, prependScale, createTransform.
  cbn [translateX translateY scale x y]. repeat split; ring.
Qed.

(** ** [clampTranslation] *)

Lemma clampTranslation_in_range (value scaledSize screenSize : Q) :
  let panDistance := Qmax 0 ((scaledSize - screenSize) / 2) in
  - panDistance <= clampTranslation value scaledSize screenSize <= panDistance.
Proof.
  unfold clampTranslation. cbv zeta.
  set (h := (scaledSize - screenSize) / 2).
  name_minmax. lra.
Qed.

(** C3.  [clampTranslation] leaves a value alone when its magnitude is
    at most the pan distance [max(0, (scaledSize - screenSize) / 2)];
    a value beyond the pan distance yields the pan distance, a value below
    its opposite yields the opposite.  With a scaled size of 2000 on a
    screen of 1000 the pan distance is 500: 800 is clamped to 500, -800 to
    -500, and 100 is returned as it is. *)
Theorem clampTranslation_spec (value scaledSize screenSize : Q) :
  let panDistance := Qmax 0 ((scaledSize - screenSize) / 2) in
  (Qabs value <= panDistance ->
     clampTranslation value scaledSize screenSize == value) /\
  (panDistance < value ->
     clampTranslation value scaledSize screenSize == panDistance) /\
  (value < - panDistance ->
     clampTranslation value scaledSize screenSize == - panDistance) /\
  Qmax 0 ((2000 - 1000) / 2) == 500 /\
  clampTranslation 800 2000 1000 == 500 /\
  clampTranslation (-800) 2000 1000 == -500 /\
  clampTranslation 100 2000 1000 == 100.
Proof.
  cbv zeta. repeat split; try (vm_compute; reflexivity).
  - intros H. apply Qabs_Qle_condition in H. revert H.
    unfold clampTranslation. cbv zeta.
    set (h := (scaledSize - screenSize) / 2).
    name_minmax. lra.
  - unfold clampTranslation. cbv zeta.
    set (h := (scaledSize - screenSize) / 2).
    name_minmax. lra.
  - unfold clampTranslation. cbv zeta.
    set (h := (scaledSize - screenSize) / 2).
    name_minmax. lra.
Qed.

(** ** Scaled dimensions and staying in bounds *)

Section Bounds.

Variables windowDim screenDim : Dimensions.

Local Abbreviation SCREEN' := (SCREEN windowDim screenDim).

Lemma getScaledDimensions_landscape (imageAspect scale : Q) :
  width SCREEN' / height SCREEN' < imageAspect ->
  getScaledDimensions windowDim screenDim imageAspect scale
  = mkDimensions (scale * width SCREEN') ((scale * width SCREEN') / imageAspect).
Proof.
  intros H. unfold getScaledDimensions. cbv zeta.
  apply gtb_true in H. rewrite H. reflexivity.
Qed.

Lemma getScaledDimensions_portrait (imageAspect scale : Q) :
  imageAspect <= width SCREEN' / height SCREEN' ->
  getScaledDimensions windowDim screenDim imageAspect scale
  = mkDimensions (scale * height SCREEN' * imageAspect) (scale * height SCREEN').
Proof.
  intros H. unfold getScaledDimensions. cbv zeta.
  apply gtb_false in H. rewrite H. reflexivity.
Qed.

(** C10.  For a positive image aspect and any scale, the dimensions
    [getScaledDimensions] returns are in the ratio of the image aspect:
    the width is the aspect times the height, and the quotient of the width
    by the height is the aspect wherever the height is not zero.  The image
    is fitted inside the screen and scaled: a landscape image (aspect above
    the aspect of the screen) gets the width [scale * SCREEN.width], any
    other image the height [scale * SCREEN.height].  The screen has a
    positive height, so that its aspect is a quotient of the model. *)
Theorem getScaledDimensions_spec (imageAspect scale : Q) :
  0 < height SCREEN' ->
  0 < imageAspect ->
  let d := getScaledDimensions windowDim screenDim imageAspect scale in
  let screenAspect := width SCREEN' / height SCREEN' in
  width d == imageAspect * height d /\
  (~ height d == 0 -> width d / height d == imageAspect) /\
  (screenAspect < imageAspect ->
     width d == scale * width SCREEN' /\
     height d == (scale * width SCREEN') / imageAspect) /\
  (imageAspect <= screenAspect ->
     height d == scale * height SCREEN' /\
     width d == scale * height SCREEN' * imageAspect).
Proof.
  intros _ Ha. cbv zeta.
  assert (Na : ~ imageAspect == 0) by lra.
  destruct (Qlt_le_dec (width SCREEN' / height SCREEN') imageAspect) as [L|L].
  - rewrite (getScaledDimensions_landscape _ _ L). cbn [width height].
    split; [|split; [|split]].
    + field. exact Na.
    + intros Nh. field.
      split; [exact Na | split; intros Z; apply Nh; rewrite Z; field; exact Na].
    + intros _. split; reflexivity.
    + intros C. exfalso. exact (Qlt_not_le _ _ L C).
  - rewrite (getScaledDimensions_portrait _ _ L). cbn [width height].
    split; [|split; [|split]].
    + ring.
    + intros Nh. field.
      split; intros Z; apply Nh; rewrite Z; ring.
    + intros C. exfalso. exact (Qlt_not_le _ _ C L).
    + intros _. split; reflexivity.
Qed.

Section KnownAspect.

Variable imageAspect : option Q.
Variable aspect : Q.
Hypothesis aspect_known : imageAspect = Some aspect.
Hypothesis aspect_nonzero : ~ aspect == 0.

Lemma getExtraTranslationToStayInBounds_known (t : TransformMatrix) :
  getExtraTranslationToStayInBounds windowDim screenDim imageAspect t
  = (let d := getScaledDimensions windowDim screenDim aspect (scale t) in
     (clampTranslation (translateX t) (width d) (width SCREEN') - translateX t,
      clampTranslation (translateY t) (height d) (height SCREEN') - translateY t)).
Proof.
  unfold getExtraTranslationToStayInBounds.
  assert (E : truthyNumber imageAspect = Some aspect)
    by (apply truthyNumber_Some; split; assumption).
  rewrite E. reflexivity.
Qed.

End KnownAspect.

(** C4.  When the image aspect is known, [getExtraTranslationToStayInBounds]
    applied to a transform with components (tx, ty, s) returns
    [dx = clampTranslation(tx, scaledWidth, SCREEN.width) - tx] and
    [dy = clampTranslation(ty, scaledHeight, SCREEN.height) - ty], the
    scaled dimensions being those of [getScaledDimensions] at the scale [s];
    so [tx + dx] and [ty + dy] lie within the pan distance
    [max(0, (scaledSize - viewportSize) / 2)] of their axis. *)
Theorem getExtraTranslationToStayInBounds_spec
    (imageAspect : option Q) (aspect : Q) (t : TransformMatrix) :
  imageAspect = Some aspect -> ~ aspect == 0 ->
  let '(tx, ty, s) := readTransform t in
  let d := getScaledDimensions windowDim screenDim aspect s in
  let r := getExtraTranslationToStayInBounds windowDim screenDim imageAspect t in
  fst r = clampTranslation tx (width d) (width SCREEN') - tx /\
  snd r = clampTranslation ty (height d) (height SCREEN') - ty /\
  Qabs (tx + fst r) <= Qmax 0 ((width d - width SCREEN') / 2) /\
  Qabs (ty + snd r) <= Qmax 0 ((height d - height SCREEN') / 2).
Proof.
  intros Hk Hn. unfold readTransform. cbv zeta.
  rewrite (getExtraTranslationToStayInBounds_known _ _ Hk Hn). cbv zeta. cbn [fst snd].
  set (d := getScaledDimensions windowDim screenDim aspect (scale t)).
  repeat split; try reflexivity.
  - apply Qabs_Qle_condition.
    pose proof (clampTranslation_in_range (translateX t) (width d) (width SCREEN')) as H.
    cbv zeta in H. lra.
  - apply Qabs_Qle_condition.
    pose proof (clampTranslation_in_range (translateY t) (height d) (height SCREEN')) as H.
    cbv zeta in H. lra.
Qed.

End Bounds.

(** ** Handlers that do not depend on the pinch bounds *)

Section Handlers.

Variables windowDim screenDim : Dimensions.
Variable imageAspect : option Q.

Local Abbreviation SCREEN' := (SCREEN windowDim screenDim).

(** C7.  While the image's dimensions are unknown the change handlers of
    the pinch and of the pan return the state they were given: the committed
    transform, the pan translation, the pinch scale, the pinch origin and
    the pinch translation are the same, and the handlers, being total
    functions, raise nothing. *)
Theorem onChange_without_dimensions (pe : PinchEvent) (ne : PanEvent) (st : State) :
  pinch_onChange windowDim screenDim imageAspect None pe st = st /\
  pan_onChange windowDim screenDim imageAspect None ne st = st.
Proof.
  split; reflexivity.
Qed.

(** C8.  A completed single tap hands exactly one call to the JS thread,
    the call of [onTap], whatever the committed scale; when the committed
    scale is not 1, the committed transform of the resulting state is the
    identity (translation 0, scale 1) and the pan translation, the pinch
    scale, the pinch origin and the pinch translation are those of before;
    when the committed scale is 1 the state is unchanged. *)
Theorem singleTap_onEnd_spec (st : State) :
  snd (singleTap_onEnd st) = [OnTap] /\
  length (filter (fun c => match c with OnTap => true | _ => false end)
                 (snd (singleTap_onEnd st))) = 1%nat /\
  (~ committedScaleOf st == 1 ->
     fst (singleTap_onEnd st) = set_committedTransform createTransform st /\
     committedTransform (fst (singleTap_onEnd st)) = mkTransform 0 0 1 /\
     committedScaleOf (fst (singleTap_onEnd st)) = 1 /\
     panTranslation (fst (singleTap_onEnd st)) = panTranslation st /\
     pinchScale (fst (singleTap_onEnd st)) = pinchScale st /\
     pinchOrigin (fst (singleTap_onEnd st)) = pinchOrigin st /\
     pinchTranslation (fst (singleTap_onEnd st)) = pinchTranslation st) /\
  (committedScaleOf st == 1 -> fst (singleTap_onEnd st) = st).
Proof.
  unfold singleTap_onEnd, readTransform, committedScaleOf, withClampedSpring.
  cbn [fst snd].
  split; [reflexivity|]. split; [reflexivity|]. split.
  - intros H. apply neqb_true in H. rewrite H. cbn [fst].
    repeat split.
  - intros H. apply neqb_false in H. rewrite H. reflexivity.
Qed.


Lemma doubleTap_onEnd_at_rest
    (dims : Dimensions) (aspect : Q) (e : TapEvent) (st : State) :
  imageAspect = Some aspect -> ~ aspect == 0 ->
  committedScaleOf st == 1 ->
  committedScaleOf (doubleTap_onEnd windowDim screenDim imageAspect (Some dims) e st)
  = 1 * doubleTapScaleOf windowDim screenDim aspect dims.
Proof.
  intros Hk Hn Hs.
  assert (E : truthyNumber imageAspect = Some aspect)
    by (apply truthyNumber_Some; split; assumption).
  unfold doubleTap_onEnd. rewrite E. unfold readTransform.
  apply neqb_false in Hs. unfold committedScaleOf in Hs. rewrite Hs.
  destruct (getExtraTranslationToStayInBounds _ _ _ _) as [dx dy].
  reflexivity.
Qed.

(** C6.  At rest (committed scale 1) and with the image's dimensions and
    aspect known, a double tap commits a transform whose scale is
    [min(max(imageAspect / screenAspect, screenAspect / imageAspect,
    MIN_DOUBLE_TAP_SCALE), (imageDimensions.width / SCREEN.width) *
    MAX_ORIGINAL_IMAGE_ZOOM)]; with an image aspect of 2 on a screen of
    aspect 1 the scale before the cap is [max(2, 1/2, 2) = 2].  The screen
    has positive sides, so that the quotients are those of the model. *)
Theorem doubleTap_onEnd_scale
    (dims : Dimensions) (aspect : Q) (e : TapEvent) (st : State) :
  0 < width SCREEN' -> 0 < height SCREEN' ->
  imageAspect = Some aspect -> ~ aspect == 0 ->
  committedScaleOf st == 1 ->
  let screenAspect := width SCREEN' / height SCREEN' in
  committedScaleOf (doubleTap_onEnd windowDim screenDim imageAspect (Some dims) e st)
  == Qmin (Qmax (Qmax (aspect / screenAspect) (screenAspect / aspect))
                MIN_DOUBLE_TAP_SCALE)
          ((width dims / width SCREEN') * MAX_ORIGINAL_IMAGE_ZOOM) /\
  (screenAspect == 1 ->
     2 / screenAspect == 2 /\ screenAspect / 2 == 1 # 2 /\
     candidateScaleOf windowDim screenDim 2 == 2).
Proof.
  intros _ _ Hk Hn Hs. cbv zeta. split.
  - rewrite (doubleTap_onEnd_at_rest dims aspect e st Hk Hn Hs).
    unfold doubleTapScaleOf, candidateScaleOf, Qmax3. cbv zeta. ring.
  - intros H1.
    assert (A : 2 / (width SCREEN' / height SCREEN') == 2)
      by (rewrite H1; reflexivity).
    assert (B : width SCREEN' / height SCREEN' / 2 == 1 # 2)
      by (rewrite H1; reflexivity).
    split; [exact A|]. split; [exact B|].
    unfold candidateScaleOf, Qmax3, MIN_DOUBLE_TAP_SCALE. cbv zeta.
    revert A B.
    generalize (2 / (width SCREEN' / height SCREEN')).
    generalize (width SCREEN' / height SCREEN' / 2).
    intros q1 q2 A B. name_minmax. lra.
Qed.

End Handlers.

(** ** The reaction *)

Lemma isScaledOf_spec (st : State) :
  isScaledOf st = neqb (pinchScale st) 1 || neqb (committedScaleOf st) 1.
Proof.
  unfold isScaledOf, readTransform, committedScaleOf.
  destruct (neqb (pinchScale st) 1); [reflexivity|].
  destruct (neqb (scale (committedTransform st)) 1); reflexivity.
Qed.

Lemma reaction_onZoom (next : bool) (prev : option bool) :
  onZoomArgs (reaction next prev) = if differs next prev then [next] else [].
Proof.
  unfold reaction. destruct (differs next prev); reflexivity.
Qed.

Lemma onZoomArgs_app (l1 l2 : list JSCall) :
  onZoomArgs (l1 ++ l2) = onZoomArgs l1 ++ onZoomArgs l2.
Proof.
  induction l1 as [|c l1 IH]; [reflexivity|].
  destruct c; simpl; rewrite IH; reflexivity.
Qed.

(** After a value has been seen, the trace flips and, if it notifies at
    all, starts with the opposite of that value. *)
Lemma runReaction_flips_from (sts : list State) :
  forall p : bool,
    flips (onZoomArgs (runReaction (Some p) sts)) /\
    (forall b rest, onZoomArgs (runReaction (Some p) sts) = b :: rest -> b <> p).
Proof.
  induction sts as [|st sts IH]; intros p.
  - simpl. split; [exact I | discriminate].
  - cbn [runReaction]. rewrite onZoomArgs_app, reaction_onZoom.
    destruct (IH (isScaledOf st)) as [IHf IHh].
    unfold differs. destruct (Bool.eqb (isScaledOf st) p) eqn:E; cbn [negb app].
    + apply Bool.eqb_prop in E. rewrite E in *. split; assumption.
    + apply Bool.eqb_false_iff in E. split.
      * destruct (onZoomArgs (runReaction (Some (isScaledOf st)) sts)) as [|b rest] eqn:R.
        { exact I. }
        { cbn [flips]. split; [|exact IHf].
          intros C. apply (IHh b rest eq_refl). symmetry. exact C. }
      * intros b rest H. inversion H; subst. exact E.
Qed.

(** C9, as the code has it.  The value the reaction watches is
    [pinchScale !== 1 || committedScale !== 1].  On its first evaluation,
    when the previous value is [null], the reaction calls [onZoom] with the
    value, whatever it is; given the value of the evaluation before, it
    calls [onZoom] with the new value when the two differ and calls nothing
    when they are equal; and over any sequence of evaluations, from the
    first one on, no two consecutive [onZoom] calls carry the same
    boolean. *)
Theorem zoom_reaction_spec :
  (forall st : State,
     isScaledOf st = neqb (pinchScale st) 1 || neqb (committedScaleOf st) 1) /\
  (forall next : bool, onZoomArgs (reaction next None) = [next]) /\
  (forall next prev : bool,
     onZoomArgs (reaction next (Some prev))
     = if Bool.eqb next prev then [] else [next]) /\
  (forall (prev : option bool) (sts : list State),
     flips (onZoomArgs (runReaction prev sts))).
Proof.
  split; [exact isScaledOf_spec|]. split; [|split].
  - intros next. reflexivity.
  - intros next prev. rewrite reaction_onZoom. unfold differs.
    destruct (Bool.eqb next prev); reflexivity.
  - intros [p|] sts.
    + apply runReaction_flips_from.
    + destruct sts as [|st sts]; [exact I|].
      cbn [runReaction]. rewrite onZoomArgs_app, reaction_onZoom.
      cbn [differs app].
      destruct (runReaction_flips_from sts (isScaledOf st)) as [Hf Hh].
      destruct (onZoomArgs (runReaction (Some (isScaledOf st)) sts)) as [|b rest] eqn:R.
      * exact I.
      * cbn [flips]. split; [|exact Hf].
        intros C. apply (Hh b rest eq_refl). symmetry. exact C.
Qed.

(** ** Rounding *)

Lemma Qfloor_half (z : Z) : Qfloor (inject_Z z + (1 # 2)) = z.
Proof.
  pose proof (Qfloor_le (inject_Z z + (1 # 2))) as L.
  pose proof (Qlt_floor (inject_Z z + (1 # 2))) as U.
  set (f := Qfloor (inject_Z z + (1 # 2))) in *.
  assert (A : inject_Z f < inject_Z (z + 1)).
  { rewrite inject_Z_plus. change (inject_Z 1) with 1. lra. }
  assert (B : inject_Z z < inject_Z (f + 1)) by lra.
  rewrite <- Zlt_Qlt in A. rewrite <- Zlt_Qlt in B. lia.
Qed.

Lemma grid_positive (g : positive) : 0 < inject_Z (Zpos g).
Proof.
  change 0 with (inject_Z 0). rewrite <- Zlt_Qlt. reflexivity.
Qed.

Lemma snap_on_grid (g : positive) (z : Z) :
  snap g (inject_Z z / inject_Z (Zpos g)) == inject_Z z / inject_Z (Zpos g).
Proof.
  unfold snap. pose proof (grid_positive g) as G.
  assert (E : inject_Z z / inject_Z (Zpos g) * inject_Z (Zpos g) + (1 # 2)
              == inject_Z z + (1 # 2)) by (field; lra).
  rewrite (Qfloor_comp _ _ E), Qfloor_half. reflexivity.
Qed.

Lemma snap_one (g : positive) : snap g 1 == 1.
Proof.
  pose proof (grid_positive g) as G.
  assert (E : 1 == inject_Z (Zpos g) / inject_Z (Zpos g)) by (field; lra).
  unfold snap.
  assert (F : 1 * inject_Z (Zpos g) + (1 # 2) == inject_Z (Zpos g) + (1 # 2)) by ring.
  rewrite (Qfloor_comp _ _ F), Qfloor_half. field. lra.
Qed.

Lemma snap_le (g : positive) (v w : Q) : v <= w -> snap g v <= snap g w.
Proof.
  intros H. unfold snap. pose proof (grid_positive g) as G.
  apply Qmult_le_compat_r.
  - rewrite <- Zle_Qle. apply Qfloor_resp_le.
    apply Qplus_le_compat; [|apply Qle_refl].
    apply Qmult_le_compat_r; [exact H | apply Qlt_le_weak; exact G].
  - apply Qlt_le_weak. apply Qinv_lt_0_compat. exact G.
Qed.

Lemma snap_comp (g : positive) (v w : Q) : v == w -> snap g v == snap g w.
Proof.
  intros H. apply Qle_antisym; apply snap_le; rewrite H; apply Qle_refl.
Qed.

#[global] Instance snap_proper (g : positive) : Proper (Qeq ==> Qeq) (snap g).
Proof.
  intros v w H. apply snap_comp. exact H.
Qed.

Lemma snap_idempotent (g : positive) (v : Q) : snap g (snap g v) == snap g v.
Proof.
  unfold snap at 2 3. apply snap_on_grid.
Qed.

(** Rounding moves a value up by at most half a step of the grid. *)
Lemma snap_upper (g : positive) (v : Q) :
  snap g v <= v + (1 # 2) / inject_Z (Zpos g).
Proof.
  unfold snap. pose proof (grid_positive g) as G.
  pose proof (Qfloor_le (v * inject_Z (Zpos g) + (1 # 2))) as L.
  set (f := inject_Z (Qfloor (v * inject_Z (Zpos g) + (1 # 2)))) in *.
  assert (E : v + (1 # 2) / inject_Z (Zpos g)
              == (v * inject_Z (Zpos g) + (1 # 2)) / inject_Z (Zpos g)) by (field; lra).
  rewrite E. apply Qmult_le_compat_r; [exact L|].
  apply Qlt_le_weak. apply Qinv_lt_0_compat. exact G.
Qed.

(** ** The bounds of the pinch *)

Section Pinch.

Variables windowDim screenDim : Dimensions.
Variable imageAspect : option Q.
Variable dims : Dimensions.
Variables translationGrid scaleGrid : positive.

Local Abbreviation maxCommittedScale := (maxCommittedScaleOf windowDim screenDim dims).
Local Abbreviation onChange := (pinch_onChange windowDim screenDim imageAspect (Some dims)).
Local Abbreviation onStart := (pinch_onStart windowDim screenDim).
Local Abbreviation onEnd := (pinch_onEnd translationGrid scaleGrid).
Local Abbreviation duringPinch := (duringPinchOf windowDim screenDim dims).
Local Abbreviation atRestAfterPinch := (atRestAfterPinchOf windowDim screenDim scaleGrid dims).

(** For a positive committed scale the two bounds are in order exactly when
    the greatest committed scale is at least 1. *)
Lemma pinch_bounds_ordered_iff (committedScale : Q) :
  0 < committedScale ->
  (minPinchScaleOf committedScale
   <= maxPinchScaleOf windowDim screenDim dims committedScale
   <-> 1 <= maxCommittedScale).
Proof.
  intros Hc. unfold minPinchScaleOf, maxPinchScaleOf.
  set (m := maxCommittedScale).
  assert (A : 1 / committedScale * committedScale == 1) by (field; lra).
  assert (B : m / committedScale * committedScale == m) by (field; lra).
  rewrite <- (Qmult_le_r _ _ committedScale Hc), A, B. reflexivity.
Qed.

(** The scale a change of the pinch chooses, times the committed scale,
    lies between 1 and the greatest committed scale. *)
Lemma nextPinchScale_bounds (committedScale eScale : Q) :
  0 < committedScale -> 1 <= maxCommittedScale ->
  1 <= nextPinchScaleOf windowDim screenDim dims committedScale eScale * committedScale
    <= maxCommittedScale.
Proof.
  intros Hc Hm.
  pose proof (proj2 (pinch_bounds_ordered_iff committedScale Hc) Hm) as Hab.
  unfold nextPinchScaleOf. revert Hab.
  unfold minPinchScaleOf, maxPinchScaleOf.
  set (m := maxCommittedScale) in *.
  assert (A : 1 / committedScale * committedScale == 1) by (field; lra).
  assert (B : m / committedScale * committedScale == m) by (field; lra).
  revert A B.
  generalize (1 / committedScale). generalize (m / committedScale).
  intros b a A B Hab.
  assert (P : a <= Qmin (Qmax a eScale) b <= b) by (name_minmax; lra).
  destruct P as [P1 P2].
  apply (Qmult_le_r _ _ committedScale Hc) in P1.
  apply (Qmult_le_r _ _ committedScale Hc) in P2.
  rewrite A in P1. rewrite B in P2. split; assumption.
Qed.

Lemma duringPinch_onChange (ct : TransformMatrix) (e : PinchEvent) (s : State) :
  0 < scale ct -> 1 <= maxCommittedScale ->
  duringPinch ct s -> duringPinch ct (onChange e s).
Proof.
  intros Hc Hm [Hct _]. unfold pinch_onChange, readTransform.
  destruct (getExtraTranslationToStayInBounds _ _ _ _) as [dx dy].
  assert (R : 1 <= nextPinchScaleOf windowDim screenDim dims (scale ct) (e_scale e)
                   * scale ct <= maxCommittedScale)
    by (apply nextPinchScale_bounds; assumption).
  destruct (neqb dx 0 || neqb dy 0); split; cbn; try exact Hct;
    right; rewrite Hct; exact R.
Qed.

Lemma duringPinch_changes (ct : TransformMatrix) (es : list PinchEvent) :
  0 < scale ct -> 1 <= maxCommittedScale ->
  forall s, duringPinch ct s ->
  duringPinch ct (fold_left (fun s e => onChange e s) es s).
Proof.
  intros Hc Hm. induction es as [|e es IH]; intros s Hs; [exact Hs|].
  cbn [fold_left]. apply IH. apply duringPinch_onChange; assumption.
Qed.

Lemma pinch_onEnd_scale (s : State) :
  committedScaleOf (onEnd s)
  = snap scaleGrid (1 * pinchScale s * scale (committedTransform s)) /\
  pinchScale (onEnd s) = 1.
Proof. split; reflexivity. Qed.

Lemma atRestAfterPinch_runPinch (g : PinchGesture) (s : State) :
  1 <= maxCommittedScale ->
  atRestAfterPinch s ->
  atRestAfterPinch
    (runPinch windowDim screenDim imageAspect (Some dims) translationGrid scaleGrid g s).
Proof.
  intros Hm (Hp & [Hlo Hhi] & Hgrid). unfold runPinch.
  set (ct := committedTransform s).
  assert (Hc : 0 < scale ct) by (unfold committedScaleOf in Hlo; subst ct; lra).
  assert (D : duringPinch ct (onStart (pg_start g) s)).
  { split; [reflexivity|]. left. exact Hp. }
  apply (duringPinch_changes ct (pg_changes g) Hc Hm) in D.
  set (s1 := fold_left _ _ _) in *.
  destruct D as [Dct Dp].
  destruct (pinch_onEnd_scale s1) as [Es Ep].
  unfold atRestAfterPinchOf. rewrite Es, Ep, Dct.
  split; [reflexivity|].
  destruct Dp as [Dp|[Dlo Dhi]].
  - assert (E : 1 * pinchScale s1 * scale ct == committedScaleOf s)
      by (rewrite Dp; unfold committedScaleOf; fold ct; ring).
    rewrite (snap_comp scaleGrid _ _ E), Hgrid.
    split; [split; assumption|]. rewrite Hgrid. reflexivity.
  - assert (E : 1 * pinchScale s1 * scale ct == pinchScale s1 * scale ct) by ring.
    rewrite (snap_comp scaleGrid _ _ E).
    split; [split|].
    + rewrite <- (snap_one scaleGrid). apply snap_le. exact Dlo.
    + apply snap_le. exact Dhi.
    + apply snap_idempotent.
Qed.

Lemma atRestAfterPinch_runPinches (gs : list PinchGesture) :
  1 <= maxCommittedScale ->
  forall s, atRestAfterPinch s ->
  atRestAfterPinch
    (runPinches windowDim screenDim imageAspect (Some dims) translationGrid scaleGrid gs s).
Proof.
  intros Hm. induction gs as [|g gs IH]; intros s Hs; [exact Hs|].
  unfold runPinches. cbn [fold_left]. apply IH.
  apply atRestAfterPinch_runPinch; assumption.
Qed.

Lemma maxCommittedScale_ge_one :
  0 < width (SCREEN windowDim screenDim) ->
  width (SCREEN windowDim screenDim) <= width dims * MAX_ORIGINAL_IMAGE_ZOOM ->
  1 <= maxCommittedScale.
Proof.
  intros Hw Hd. unfold maxCommittedScaleOf.
  set (W := width (SCREEN windowDim screenDim)) in *.
  apply (Qmult_le_r _ _ W Hw).
  assert (E : width dims / W * MAX_ORIGINAL_IMAGE_ZOOM * W
              == width dims * MAX_ORIGINAL_IMAGE_ZOOM) by (field; lra).
  rewrite E. lra.
Qed.

(** C1, as the code has it.  Let the screen have a positive width and let
    the image's native width times [MAX_ORIGINAL_IMAGE_ZOOM] be at least the
    width of the screen, so that the greatest committed scale
    [(imageDimensions.width / SCREEN.width) * MAX_ORIGINAL_IMAGE_ZOOM] is at
    least 1.  Then after any sequence of pinch gestures (start, changes,
    end) from a state at rest with committed scale 1, the committed scale is
    at least 1 and at most the rounding of the greatest committed scale,
    which exceeds the greatest committed scale by no more than half a step
    of the grid of [applyRounding]. *)
Theorem pinch_sequence_scale_bounds (gs : list PinchGesture) (st : State) :
  0 < width (SCREEN windowDim screenDim) ->
  width (SCREEN windowDim screenDim) <= width dims * MAX_ORIGINAL_IMAGE_ZOOM ->
  committedScaleOf st == 1 ->
  pinchScale st == 1 ->
  let st' :=
    runPinches windowDim screenDim imageAspect (Some dims) translationGrid scaleGrid gs st in
  1 <= committedScaleOf st' /\
  committedScaleOf st' <= snap scaleGrid maxCommittedScale /\
  committedScaleOf st' <= maxCommittedScale + (1 # 2) / inject_Z (Zpos scaleGrid).
Proof.
  intros Hw Hd Hs Hp. cbv zeta.
  pose proof (maxCommittedScale_ge_one Hw Hd) as Hm.
  assert (R : atRestAfterPinch st).
  { split; [exact Hp|]. split; [split|].
    - rewrite Hs. apply Qle_refl.
    - rewrite Hs, <- (snap_one scaleGrid). apply snap_le. exact Hm.
    - rewrite (snap_comp scaleGrid _ _ Hs), Hs. apply snap_one. }
  destruct (atRestAfterPinch_runPinches gs Hm st R) as (_ & [Hlo Hhi] & _).
  split; [exact Hlo|]. split; [exact Hhi|].
  eapply Qle_trans; [exact Hhi | apply snap_upper].
Qed.

End Pinch.

(** ** The bounds on a narrow image *)

(** C2, evaluated.  On a screen 1000 wide, an image 250 wide has the
    greatest committed scale 1/2.  From the initial state (committed scale
    1) the lower bound of the pinch is 1 and the upper bound is 1/2: the
    bounds are inverted, and a pinch outwards by 3/2 sets the pinch scale to
    1/2, below the lower bound. *)
Theorem pinch_bounds_invert_narrow_image :
  let committedScale := committedScaleOf initialState in
  let e := mkPinchEvent 500 950 (3 # 2) in
  committedScale == 1 /\
  maxCommittedScaleOf tallWindow tallScreen smallImage == 1 # 2 /\
  minPinchScaleOf committedScale == 1 /\
  maxPinchScaleOf tallWindow tallScreen smallImage committedScale == 1 # 2 /\
  maxPinchScaleOf tallWindow tallScreen smallImage committedScale
    < minPinchScaleOf committedScale /\
  pinchScale (pinch_onChange tallWindow tallScreen (Some (1 # 2)) (Some smallImage)
                e initialState) == 1 # 2.
Proof.
  cbv zeta. repeat split; vm_compute; reflexivity.
Qed.

(** The claim of C1 fails on that image: one pinch outwards by 3/2 from the
    initial state commits the scale 1/2. *)
Lemma pinch_narrow_image_commits_below_one :
  let gs := [mkPinchGesture (mkPinchEvent 500 950 1) [mkPinchEvent 500 950 (3 # 2)]] in
  let st' :=
    runPinches tallWindow tallScreen (Some (1 # 2)) (Some smallImage) 1 200
               gs initialState in
  committedScaleOf initialState == 1 /\
  committedScaleOf st' == 1 # 2 /\
  ~ (1 <= committedScaleOf st' /\
     committedScaleOf st' <= maxCommittedScaleOf tallWindow tallScreen smallImage).
Proof.
  cbv zeta. split; [reflexivity|]. split; [vm_compute; reflexivity|].
  intros [H _]. vm_compute in H. apply H. reflexivity.
Qed.

(** Rounding can carry the committed scale past the bound: on a screen
    1080 wide an image 1082 wide has the greatest committed scale 541/270,
    and with a scale grid of 1/200 a pinch outwards by 3 commits 401/200. *)
Lemma pinch_rounding_passes_bound :
  let window := mkDimensions 1080 2000 in
  let image := mkDimensions 1082 1082 in
  let gs := [mkPinchGesture (mkPinchEvent 540 480 1) [mkPinchEvent 540 480 3]] in
  let st' := runPinches window window (Some 1) (Some image) 1 200 gs initialState in
  maxCommittedScaleOf window window image == 541 # 270 /\
  committedScaleOf st' == 401 # 200 /\
  maxCommittedScaleOf window window image < committedScaleOf st' /\
  committedScaleOf st' <= snap 200 (maxCommittedScaleOf window window image).
Proof.
  cbv zeta. repeat split; vm_compute; try reflexivity. discriminate.
Qed.


(** The claim of C9 fails on the first evaluation: with a single evaluation,
    at the initial state, there are no two consecutive evaluations between
    which the value could change, the value is [false] as it is at rest, and
    [onZoom] is called all the same. *)
Lemma reaction_notifies_on_first_evaluation :
  isScaledOf initialState = false /\
  runReaction None [initialState] = [SetIsScaled false; OnZoom false] /\
  onZoomArgs (runReaction None [initialState]) = [false] /\
  ~ (forall sts : list State,
       (length (onZoomArgs (runReaction None sts)) <= length sts - 1)%nat).
Proof.
  split; [reflexivity|]. split; [reflexivity|]. split; [reflexivity|].
  intros H. specialize (H [initialState]). cbn in H. lia.
Qed.

(** ** The theorems at concrete inputs *)

Lemma clampTranslation_spec_witness :
  Qabs 100 <= Qmax 0 ((2000 - 1000) / 2) /\ clampTranslation 100 2000 1000 == 100.
Proof.
  split.
  - vm_compute. discriminate.
  - apply (proj1 (clampTranslation_spec 100 2000 1000)). vm_compute. discriminate.
Defined.

Lemma getScaledDimensions_spec_witness :
  0 < height (SCREEN tallWindow tallScreen) /\ 0 < 2 /\
  width (getScaledDimensions tallWindow tallScreen 2 3)
  == 2 * height (getScaledDimensions tallWindow tallScreen 2 3).
Proof.
  split; [reflexivity|]. split; [reflexivity|].
  apply (proj1 (getScaledDimensions_spec tallWindow tallScreen 2 3 eq_refl eq_refl)).
Defined.

Lemma getExtraTranslationToStayInBounds_spec_witness :
  let t := mkTransform 800 0 2 in
  let r := getExtraTranslationToStayInBounds tallWindow tallScreen (Some 2) t in
  ~ 2 == 0 /\ fst r == -300 /\ snd r == 0 /\
  Qabs (800 + fst r)
  <= Qmax 0 ((width (getScaledDimensions tallWindow tallScreen 2 2)
              - width (SCREEN tallWindow tallScreen)) / 2).
Proof.
  cbv zeta.
  assert (N : ~ 2 == 0) by (intros H; discriminate H).
  pose proof (getExtraTranslationToStayInBounds_spec tallWindow tallScreen
                (Some 2) 2 (mkTransform 800 0 2) eq_refl N) as H.
  cbv beta iota zeta delta [readTransform translateX translateY scale] in H.
  destruct H as (_ & _ & Hx & _).
  split; [exact N|]. split; [vm_compute; reflexivity|].
  split; [vm_compute; reflexivity|]. exact Hx.
Defined.

Lemma singleTap_onEnd_spec_witness :
  let zoomed := set_committedTransform (mkTransform 10 20 2) initialState in
  fst (singleTap_onEnd initialState) = initialState /\
  committedTransform (fst (singleTap_onEnd zoomed)) = mkTransform 0 0 1.
Proof.
  cbv zeta. split.
  - apply (proj2 (proj2 (proj2 (singleTap_onEnd_spec initialState)))). reflexivity.
  - apply (proj1 (proj2 (proj2 (singleTap_onEnd_spec _)))).
    intros H. vm_compute in H. discriminate H.
Defined.


Lemma doubleTap_onEnd_scale_witness :
  0 < width (SCREEN squareWindow squareWindow) /\
  0 < height (SCREEN squareWindow squareWindow) /\
  committedScaleOf initialState == 1 /\
  committedScaleOf
    (doubleTap_onEnd squareWindow squareWindow (Some 2) (Some largeImage)
                     (mkTapEvent 100 100) initialState) == 2 /\
  candidateScaleOf squareWindow squareWindow 2 == 2.
Proof.
  assert (N : ~ 2 == 0) by (intros H; discriminate H).
  assert (R : committedScaleOf initialState == 1) by reflexivity.
  destruct (doubleTap_onEnd_scale squareWindow squareWindow (Some 2) largeImage 2
              (mkTapEvent 100 100) initialState eq_refl eq_refl eq_refl N R) as [H1 H2].
  split; [reflexivity|]. split; [reflexivity|].
  split; [exact R|]. split.
  - rewrite H1. vm_compute. reflexivity.
  - apply H2. vm_compute. reflexivity.
Defined.

Lemma pinch_sequence_scale_bounds_witness :
  let gs := [mkPinchGesture (mkPinchEvent 500 950 1)
               [mkPinchEvent 500 950 (3 # 2); mkPinchEvent 510 940 7];
             mkPinchGesture (mkPinchEvent 100 100 1) [mkPinchEvent 100 100 (1 # 10)]] in
  let st' :=
    runPinches tallWindow tallScreen (Some 2) (Some largeImage) 1 200 gs initialState in
  0 < width (SCREEN tallWindow tallScreen) /\
  width (SCREEN tallWindow tallScreen) <= width largeImage * MAX_ORIGINAL_IMAGE_ZOOM /\
  1 <= committedScaleOf st' /\
  committedScaleOf st' <= snap 200 (maxCommittedScaleOf tallWindow tallScreen largeImage).
Proof.
  cbv zeta.
  assert (W : 0 < width (SCREEN tallWindow tallScreen)) by reflexivity.
  assert (M : width (SCREEN tallWindow tallScreen)
              <= width largeImage * MAX_ORIGINAL_IMAGE_ZOOM)
    by (vm_compute; discriminate).
  split; [exact W|]. split; [exact M|].
  destruct (pinch_sequence_scale_bounds tallWindow tallScreen (Some 2) largeImage 1 200
              [mkPinchGesture (mkPinchEvent 500 950 1)
                 [mkPinchEvent 500 950 (3 # 2); mkPinchEvent 510 940 7];
               mkPinchGesture (mkPinchEvent 100 100 1) [mkPinchEvent 100 100 (1 # 10)]]
              initialState W M (Qeq_refl 1) (Qeq_refl 1)) as (H1 & H2 & _).
  split; assumption.
Defined.

(** * Further properties of the image item *)

(** ** Clamping *)

(** X1.  An image that is not larger than the screen along an axis cannot be
    moved along it: [clampTranslation] returns 0 for every value. *)
Theorem clampTranslation_fits (value scaledSize screenSize : Q) :
  scaledSize <= screenSize ->
  clampTranslation value scaledSize screenSize == 0.
Proof.
  intros H. unfold clampTranslation. cbv zeta.
  assert (P : (scaledSize - screenSize) / 2 <= 0)
    by (unfold Qdiv; change (/ 2) with (1 # 2); lra).
  revert P. generalize ((scaledSize - screenSize) / 2). intros h P.
  name_minmax. lra.
Qed.

(** X2.  Clamping keeps the order of translations: a translation further to one
    side is never clamped to the other side of a nearer one. *)
Theorem clampTranslation_monotone (v w scaledSize screenSize : Q) :
  v <= w ->
  clampTranslation v scaledSize screenSize <= clampTranslation w scaledSize screenSize.
Proof.
  intros H. unfold clampTranslation. cbv zeta.
  generalize ((scaledSize - screenSize) / 2). intros h.
  name_minmax. lra.
Qed.

(** X3.  Clamping a clamped translation changes nothing, and clamping is
    symmetric about the centre. *)
Theorem clampTranslation_idempotent_odd (value scaledSize screenSize : Q) :
  clampTranslation (clampTranslation value scaledSize screenSize) scaledSize screenSize
  == clampTranslation value scaledSize screenSize /\
  clampTranslation (- value) scaledSize screenSize
  == - clampTranslation value scaledSize screenSize.
Proof.
  unfold clampTranslation. cbv zeta.
  generalize ((scaledSize - screenSize) / 2). intros h.
  split; name_minmax; lra.
Qed.

(** ** Fitting the image in the screen *)

Lemma Qmult_le_nonneg_l (z a b : Q) : 0 <= z -> a <= b -> z * a <= z * b.
Proof.
  intros Hz H. rewrite (Qmult_comm z a), (Qmult_comm z b).
  apply Qmult_le_compat_r; assumption.
Qed.

Section Fit.

Variables windowDim screenDim : Dimensions.

Local Abbreviation SCREEN' := (SCREEN windowDim screenDim).

Lemma getScaledDimensions_within (imageAspect scale : Q) :
  0 < width SCREEN' -> 0 < height SCREEN' ->
  0 < imageAspect -> 0 <= scale ->
  let d := getScaledDimensions windowDim screenDim imageAspect scale in
  width d <= scale * width SCREEN' /\
  height d <= scale * height SCREEN' /\
  (width d == scale * width SCREEN' \/ height d == scale * height SCREEN').
Proof.
  intros HW HH Ha Hs. cbv zeta.
  assert (R : width SCREEN' / height SCREEN' * height SCREEN' == width SCREEN')
    by (field; lra).
  destruct (Qlt_le_dec (width SCREEN' / height SCREEN') imageAspect) as [L|L].
  - rewrite (getScaledDimensions_landscape windowDim screenDim _ scale L).
    cbn [width height].
    assert (Q1 : width SCREEN' / imageAspect * imageAspect == width SCREEN')
      by (field; lra).
    assert (Q2 : width SCREEN' / imageAspect <= height SCREEN').
    { apply (Qmult_le_r _ _ imageAspect Ha). rewrite Q1.
      apply (Qmult_lt_r _ _ _ HH) in L. rewrite R in L.
      apply Qlt_le_weak. rewrite (Qmult_comm (height SCREEN') imageAspect). exact L. }
    split; [apply Qle_refl|]. split; [|left; reflexivity].
    assert (E : scale * width SCREEN' / imageAspect
                == scale * (width SCREEN' / imageAspect)) by (field; lra).
    rewrite E. apply Qmult_le_nonneg_l; assumption.
  - rewrite (getScaledDimensions_portrait windowDim screenDim _ scale L).
    cbn [width height].
    assert (Q2 : height SCREEN' * imageAspect <= width SCREEN').
    { apply (Qmult_le_r _ _ _ HH) in L. rewrite R in L.
      rewrite (Qmult_comm (height SCREEN') imageAspect). exact L. }
    split; [|split; [apply Qle_refl | right; reflexivity]].
    assert (E : scale * height SCREEN' * imageAspect
                == scale * (height SCREEN' * imageAspect)) by ring.
    rewrite E. apply Qmult_le_nonneg_l; assumption.
Qed.

End Fit.

(** X4.  For a positive image aspect on a screen with positive sides, the image
    scaled by a non-negative factor is contained in the screen scaled by
    that factor and touches it along one axis. *)
Theorem getScaledDimensions_contained
    (windowDim screenDim : Dimensions) (imageAspect scale : Q) :
  0 < width (SCREEN windowDim screenDim) -> 0 < height (SCREEN windowDim screenDim) ->
  0 < imageAspect -> 0 <= scale ->
  let d := getScaledDimensions windowDim screenDim imageAspect scale in
  width d <= scale * width (SCREEN windowDim screenDim) /\
  height d <= scale * height (SCREEN windowDim screenDim) /\
  (width d == scale * width (SCREEN windowDim screenDim) \/
   height d == scale * height (SCREEN windowDim screenDim)).
Proof.
  intros HW HH Ha Hs. apply getScaledDimensions_within; assumption.
Qed.

(** ** What is displayed stays within the edges *)

(** Unfolds the products of the transforms down to their components. *)
Ltac components :=
  cbv beta iota zeta delta
    [animatedTransform prependTransform prependPinch prependPan
     prependTranslate prependScale createTransform withClampedSpring
     set_panTranslation set_pinchTranslation set_pinchScale set_pinchOrigin
     set_committedTransform
     translateX translateY scale x y
     committedTransform panTranslation pinchOrigin pinchScale pinchTranslation].

Section InBounds.

Variables windowDim screenDim : Dimensions.
Variable imageAspect : option Q.
Variable aspect : Q.
Hypothesis aspect_known : imageAspect = Some aspect.
Hypothesis aspect_nonzero : ~ aspect == 0.

Local Abbreviation extra := (getExtraTranslationToStayInBounds windowDim screenDim imageAspect).

(** A transform moved by the extra translation of [t], at the scale of
    [t], is within the edges. *)
Lemma inBounds_shift (t t' : TransformMatrix) :
  scale t' = scale t ->
  translateX t' == translateX t + fst (extra t) ->
  translateY t' == translateY t + snd (extra t) ->
  inBounds windowDim screenDim aspect t'.
Proof.
  intros Hs Hx Hy. unfold inBounds. cbv zeta. rewrite Hs.
  rewrite (getExtraTranslationToStayInBounds_known
             windowDim screenDim imageAspect aspect aspect_known aspect_nonzero t) in Hx, Hy.
  cbv zeta in Hx, Hy. cbn [fst snd] in Hx, Hy.
  set (d := getScaledDimensions windowDim screenDim aspect (scale t)) in *.
  pose proof (clampTranslation_in_range (translateX t) (width d)
                (width (SCREEN windowDim screenDim))) as Bx.
  pose proof (clampTranslation_in_range (translateY t) (height d)
                (height (SCREEN windowDim screenDim))) as By.
  cbv zeta in Bx, By.
  split; apply Qabs_Qle_condition; lra.
Qed.

Lemma pan_onChange_unfold (dims : Dimensions) (e : PanEvent) (st : State) :
  let np := mkPosition (translationX e) (translationY e) in
  let t := animatedTransform (set_panTranslation np st) in
  pan_onChange windowDim screenDim imageAspect (Some dims) e st
  = set_panTranslation
      (mkPosition (x np + fst (extra t)) (y np + snd (extra t))) st.
Proof.
  cbv zeta. unfold pan_onChange. components.
  destruct (getExtraTranslationToStayInBounds _ _ _ _) as [dx dy]. reflexivity.
Qed.

Lemma pan_onChange_inBounds (dims : Dimensions) (e : PanEvent) (st : State) :
  inBounds windowDim screenDim aspect
    (animatedTransform (pan_onChange windowDim screenDim imageAspect (Some dims) e st)).
Proof.
  rewrite pan_onChange_unfold. cbv zeta.
  set (np := mkPosition (translationX e) (translationY e)).
  set (t := animatedTransform (set_panTranslation np st)).
  apply (inBounds_shift t).
  - reflexivity.
  - generalize (fst (extra t)). intros dx. subst t np. components. ring.
  - generalize (snd (extra t)). intros dy. subst t np. components. ring.
Qed.

Lemma pinch_onChange_inBounds (dims : Dimensions) (e : PinchEvent) (st : State) :
  inBounds windowDim screenDim aspect
    (animatedTransform (pinch_onChange windowDim screenDim imageAspect (Some dims) e st)).
Proof.
  unfold pinch_onChange, readTransform.
  set (next := nextPinchScaleOf windowDim screenDim dims
                 (scale (committedTransform st)) (e_scale e)).
  set (st1 := set_pinchScale next st).
  change (prependTransform _ _) with (animatedTransform st1).
  destruct (extra (animatedTransform st1)) as [dx dy] eqn:G.
  destruct (neqb dx 0 || neqb dy 0) eqn:B.
  - apply (inBounds_shift (animatedTransform st1)).
    + reflexivity.
    + rewrite G. cbn [fst]. subst st1. generalize next. intros q. components. ring.
    + rewrite G. cbn [snd]. subst st1. generalize next. intros q. components. ring.
  - apply orb_false_iff in B. destruct B as [Bx By].
    apply neqb_false in Bx. apply neqb_false in By.
    apply (inBounds_shift (animatedTransform st1)).
    + reflexivity.
    + rewrite G. cbn [fst]. rewrite Bx. ring.
    + rewrite G. cbn [snd]. rewrite By. ring.
Qed.

Lemma doubleTap_onEnd_inBounds (dims : Dimensions) (e : TapEvent) (st : State) :
  committedScaleOf st == 1 ->
  inBounds windowDim screenDim aspect
    (committedTransform
       (doubleTap_onEnd windowDim screenDim imageAspect (Some dims) e st)).
Proof.
  intros Hs.
  assert (E : truthyNumber imageAspect = Some aspect)
    by (apply truthyNumber_Some; split; assumption).
  unfold doubleTap_onEnd. rewrite E. unfold readTransform.
  apply neqb_false in Hs. unfold committedScaleOf in Hs. rewrite Hs.
  set (s := doubleTapScaleOf windowDim screenDim aspect dims).
  set (o := mkPosition _ _).
  set (c := prependPinch createTransform s o (mkPosition 0 0)).
  destruct (extra c) as [dx dy] eqn:G.
  cbn [committedTransform set_committedTransform]. unfold withClampedSpring.
  apply (inBounds_shift c).
  - reflexivity.
  - rewrite G. cbn [fst]. subst c o. generalize s. intros q. components. ring.
  - rewrite G. cbn [snd]. subst c o. generalize s. intros q. components. ring.
Qed.

End InBounds.

(** X5.  After a change of the pan, what is displayed is within the edges: on
    each axis the displayed translation is at most the pan distance of the
    image at the displayed scale. *)
Theorem pan_onChange_stays_in_bounds
    (windowDim screenDim : Dimensions) (imageAspect : option Q) (aspect : Q)
    (dims : Dimensions) (e : PanEvent) (st : State) :
  imageAspect = Some aspect -> ~ aspect == 0 ->
  inBounds windowDim screenDim aspect
    (animatedTransform (pan_onChange windowDim screenDim imageAspect (Some dims) e st)).
Proof.
  intros Hk Hn. apply pan_onChange_inBounds; assumption.
Qed.

(** X6.  After a change of the pinch, what is displayed is within the edges. *)
Theorem pinch_onChange_stays_in_bounds
    (windowDim screenDim : Dimensions) (imageAspect : option Q) (aspect : Q)
    (dims : Dimensions) (e : PinchEvent) (st : State) :
  imageAspect = Some aspect -> ~ aspect == 0 ->
  inBounds windowDim screenDim aspect
    (animatedTransform (pinch_onChange windowDim screenDim imageAspect (Some dims) e st)).
Proof.
  intros Hk Hn. apply pinch_onChange_inBounds; assumption.
Qed.

(** X7.  A double tap at rest commits a transform that is within the edges,
    wherever the tap was. *)
Theorem doubleTap_onEnd_lands_in_bounds
    (windowDim screenDim : Dimensions) (imageAspect : option Q) (aspect : Q)
    (dims : Dimensions) (e : TapEvent) (st : State) :
  imageAspect = Some aspect -> ~ aspect == 0 ->
  committedScaleOf st == 1 ->
  inBounds windowDim screenDim aspect
    (committedTransform
       (doubleTap_onEnd windowDim screenDim imageAspect (Some dims) e st)).
Proof.
  intros Hk Hn Hs. apply doubleTap_onEnd_inBounds; assumption.
Qed.

(** Within the edges at a scale of at most 1 means centred. *)
Lemma inBounds_centred
    (windowDim screenDim : Dimensions) (aspect : Q) (t : TransformMatrix) :
  0 < width (SCREEN windowDim screenDim) -> 0 < height (SCREEN windowDim screenDim) ->
  0 < aspect -> 0 <= scale t <= 1 ->
  inBounds windowDim screenDim aspect t ->
  translateX t == 0 /\ translateY t == 0.
Proof.
  intros HW HH Ha [Hs0 Hs1] [Bx By]. cbv zeta in Bx, By.
  destruct (getScaledDimensions_within windowDim screenDim aspect (scale t)
              HW HH Ha Hs0) as (Dw & Dh & _).
  set (d := getScaledDimensions windowDim screenDim aspect (scale t)) in *.
  set (W := width (SCREEN windowDim screenDim)) in *.
  set (H := height (SCREEN windowDim screenDim)) in *.
  assert (Sw : scale t * W <= W).
  { rewrite <- (Qmult_1_l W) at 2. apply Qmult_le_compat_r; lra. }
  assert (Sh : scale t * H <= H).
  { rewrite <- (Qmult_1_l H) at 2. apply Qmult_le_compat_r; lra. }
  apply Qabs_Qle_condition in Bx. apply Qabs_Qle_condition in By.
  assert (Px : (width d - W) / 2 <= 0)
    by (unfold Qdiv; change (/ 2) with (1 # 2); lra).
  assert (Py : (height d - H) / 2 <= 0)
    by (unfold Qdiv; change (/ 2) with (1 # 2); lra).
  revert Bx By Px Py.
  generalize ((width d - W) / 2). generalize ((height d - H) / 2).
  intros hy hx. name_minmax. lra.
Qed.

(** X8.  While the displayed scale is at most 1 the image cannot be panned: after
    any change of the pan the displayed translation is 0 on both axes. *)
Theorem pan_onChange_centred_when_unzoomed
    (windowDim screenDim : Dimensions) (imageAspect : option Q) (aspect : Q)
    (dims : Dimensions) (e : PanEvent) (st : State) :
  0 < width (SCREEN windowDim screenDim) -> 0 < height (SCREEN windowDim screenDim) ->
  imageAspect = Some aspect -> 0 < aspect ->
  0 <= pinchScale st * committedScaleOf st <= 1 ->
  let st' := pan_onChange windowDim screenDim imageAspect (Some dims) e st in
  translateX (animatedTransform st') == 0 /\ translateY (animatedTransform st') == 0.
Proof.
  intros HW HH Hk Ha Hs. cbv zeta.
  assert (Hn : ~ aspect == 0) by lra.
  apply (inBounds_centred windowDim screenDim aspect _ HW HH Ha).
  - rewrite pan_onChange_unfold. unfold committedScaleOf in Hs.
    revert Hs. components. intros Hs. lra.
  - apply pan_onChange_inBounds; assumption.
Qed.

(** ** Ending a gesture *)

Lemma sameTransform_applyRounding (g1 g2 : positive) (t u : TransformMatrix) :
  sameTransform t u -> sameTransform (applyRounding g1 g2 t) (applyRounding g1 g2 u).
Proof.
  intros (Hx & Hy & Hs). unfold sameTransform, applyRounding.
  cbn [translateX translateY scale].
  repeat split; apply snap_comp; assumption.
Qed.

(** X9.  Ending a pinch while no pan is held does not move the picture beyond
    rounding: what is displayed after the end is the rounding of what was
    displayed before it. *)
Theorem pinch_onEnd_keeps_display (translationGrid scaleGrid : positive) (st : State) :
  panTranslation st = mkPosition 0 0 ->
  sameTransform
    (animatedTransform (pinch_onEnd translationGrid scaleGrid st))
    (applyRounding translationGrid scaleGrid (animatedTransform st)).
Proof.
  destruct st as [c p o s tr]. cbn [panTranslation]. intros Hp. subst p.
  unfold pinch_onEnd. cbv zeta.
  cbn [set_committedTransform set_pinchScale set_pinchOrigin set_pinchTranslation
       committedTransform panTranslation pinchOrigin pinchScale pinchTranslation].
  set (t := prependTransform (prependPinch createTransform s o tr) c).
  assert (F : sameTransform t
                (animatedTransform (mkState c (mkPosition 0 0) o s tr))).
  { subst t. unfold sameTransform. components. repeat split; ring. }
  destruct (sameTransform_applyRounding translationGrid scaleGrid _ _ F) as (Fx & Fy & Fs).
  unfold sameTransform. rewrite <- Fx, <- Fy, <- Fs.
  generalize (applyRounding translationGrid scaleGrid t). intros r.
  components. repeat split; ring.
Qed.

(** X10.  Ending a pan while no pinch is held does not move the picture beyond
    rounding either. *)
Theorem pan_onEnd_keeps_display (translationGrid scaleGrid : positive) (st : State) :
  pinchScale st = 1 ->
  pinchOrigin st = mkPosition 0 0 ->
  pinchTranslation st = mkPosition 0 0 ->
  sameTransform
    (animatedTransform (pan_onEnd translationGrid scaleGrid st))
    (applyRounding translationGrid scaleGrid (animatedTransform st)).
Proof.
  destruct st as [c p o s tr]. cbn [pinchScale pinchOrigin pinchTranslation].
  intros Hs Ho Ht. subst s o tr.
  unfold pan_onEnd. cbv zeta.
  cbn [set_committedTransform set_panTranslation
       committedTransform panTranslation pinchOrigin pinchScale pinchTranslation].
  set (t := prependTransform (prependPan createTransform p) c).
  assert (F : sameTransform t
                (animatedTransform (mkState c p (mkPosition 0 0) 1 (mkPosition 0 0)))).
  { subst t. unfold sameTransform. components. repeat split; ring. }
  destruct (sameTransform_applyRounding translationGrid scaleGrid _ _ F) as (Fx & Fy & Fs).
  unfold sameTransform. rewrite <- Fx, <- Fy, <- Fs.
  generalize (applyRounding translationGrid scaleGrid t). intros r.
  components. repeat split; ring.
Qed.

(** ** Pans and the scale *)

Section PanScale.

Variables windowDim screenDim : Dimensions.
Variable imageAspect : option Q.
Variable imageDimensions : option Dimensions.
Variables translationGrid scaleGrid : positive.

Lemma pan_onChange_keeps (e : PanEvent) (st : State) :
  let st' := pan_onChange windowDim screenDim imageAspect imageDimensions e st in
  committedTransform st' = committedTransform st /\
  pinchScale st' = pinchScale st /\
  pinchOrigin st' = pinchOrigin st /\
  pinchTranslation st' = pinchTranslation st.
Proof.
  cbv zeta. unfold pan_onChange. destruct imageDimensions as [d|].
  - destruct (getExtraTranslationToStayInBounds _ _ _ _) as [dx dy].
    repeat split.
  - repeat split.
Qed.

Lemma pan_changes_keep (es : list PanEvent) :
  forall st,
  let st' :=
    fold_left (fun s e => pan_onChange windowDim screenDim imageAspect imageDimensions e s)
              es st in
  committedTransform st' = committedTransform st /\
  pinchScale st' = pinchScale st /\
  pinchOrigin st' = pinchOrigin st /\
  pinchTranslation st' = pinchTranslation st.
Proof.
  induction es as [|e es IH]; intros st; cbv zeta.
  - repeat split.
  - cbn [fold_left].
    destruct (IH (pan_onChange windowDim screenDim imageAspect imageDimensions e st))
      as (A & B & C & D).
    destruct (pan_onChange_keeps e st) as (A' & B' & C' & D').
    cbv zeta in A, B, C, D, A', B', C', D'.
    rewrite A, B, C, D. repeat split; assumption.
Qed.

Lemma runPan_scale (es : list PanEvent) (st : State) :
  let st' := runPan windowDim screenDim imageAspect imageDimensions
                    translationGrid scaleGrid es st in
  committedScaleOf st' = snap scaleGrid (1 * committedScaleOf st) /\
  panTranslation st' = mkPosition 0 0 /\
  pinchScale st' = pinchScale st /\
  pinchOrigin st' = pinchOrigin st /\
  pinchTranslation st' = pinchTranslation st.
Proof.
  cbv zeta. unfold runPan.
  destruct (pan_changes_keep es st) as (A & B & C & D). cbv zeta in A, B, C, D.
  set (s1 := fold_left _ es st) in *.
  unfold pan_onEnd, committedScaleOf. cbv zeta.
  cbn [set_panTranslation set_committedTransform
       committedTransform panTranslation pinchOrigin pinchScale pinchTranslation].
  rewrite A. repeat split; assumption.
Qed.

End PanScale.

(** X11.  A whole pan (changes, then the end), whatever its events, leaves the
    scale alone: a committed scale on the grid of the rounding is the
    committed scale afterwards.  The pan translation is back at 0 and the
    pinch state is untouched. *)
Theorem runPan_keeps_scale
    (windowDim screenDim : Dimensions) (imageAspect : option Q)
    (imageDimensions : option Dimensions) (translationGrid scaleGrid : positive)
    (es : list PanEvent) (st : State) :
  snap scaleGrid (committedScaleOf st) == committedScaleOf st ->
  let st' := runPan windowDim screenDim imageAspect imageDimensions
                    translationGrid scaleGrid es st in
  committedScaleOf st' == committedScaleOf st /\
  panTranslation st' = mkPosition 0 0 /\
  pinchScale st' = pinchScale st /\
  pinchOrigin st' = pinchOrigin st /\
  pinchTranslation st' = pinchTranslation st.
Proof.
  intros Hg. cbv zeta.
  destruct (runPan_scale windowDim screenDim imageAspect imageDimensions
              translationGrid scaleGrid es st) as (A & B & C & D & E).
  cbv zeta in A, B, C, D, E. rewrite A.
  split; [|repeat split; assumption].
  assert (F : 1 * committedScaleOf st == committedScaleOf st) by ring.
  rewrite (snap_comp scaleGrid _ _ F). exact Hg.
Qed.

(** ** The pinch between its bounds *)

(** X12.  Between the two bounds the pinch follows the fingers: the pinch scale
    after a change is the scale of the event. *)
Theorem pinch_onChange_follows_event
    (windowDim screenDim : Dimensions) (imageAspect : option Q)
    (dims : Dimensions) (e : PinchEvent) (st : State) :
  minPinchScaleOf (committedScaleOf st) <= e_scale e ->
  e_scale e <= maxPinchScaleOf windowDim screenDim dims (committedScaleOf st) ->
  pinchScale (pinch_onChange windowDim screenDim imageAspect (Some dims) e st)
  == e_scale e.
Proof.
  intros Hlo Hhi. unfold pinch_onChange, readTransform.
  destruct (getExtraTranslationToStayInBounds _ _ _ _) as [dx dy].
  assert (R : nextPinchScaleOf windowDim screenDim dims
                (scale (committedTransform st)) (e_scale e) == e_scale e).
  { unfold nextPinchScaleOf. unfold committedScaleOf in Hlo, Hhi. revert Hlo Hhi.
    generalize (minPinchScaleOf (scale (committedTransform st))).
    generalize (maxPinchScaleOf windowDim screenDim dims (scale (committedTransform st))).
    intros b a Hlo Hhi. name_minmax. lra. }
  destruct (neqb dx 0 || neqb dy 0); cbn; exact R.
Qed.

(** ** The scale under pinch and pan calls in any order *)

Section Simultaneous.

Variables windowDim screenDim : Dimensions.
Variable imageAspect : option Q.
Variable dims : Dimensions.
Variables translationGrid scaleGrid : positive.

Local Abbreviation maxCommittedScale := (maxCommittedScaleOf windowDim screenDim dims).
Local Abbreviation zoomWithin := (zoomWithinOf windowDim screenDim scaleGrid dims).

Hypothesis max_ge_one : 1 <= maxCommittedScale.

(** The invariant only looks at the two scales. *)
Lemma zoomWithin_same (s s' : State) :
  pinchScale s' == pinchScale s ->
  committedScaleOf s' == committedScaleOf s ->
  zoomWithin s -> zoomWithin s'.
Proof.
  intros Hp Hc (G & R & P). unfold zoomWithinOf.
  rewrite Hp, Hc. split; [exact G|]. split; [exact R | exact P].
Qed.

Lemma zoomWithin_pinch_onChange (e : PinchEvent) (s : State) :
  zoomWithin s ->
  zoomWithin (pinch_onChange windowDim screenDim imageAspect (Some dims) e s).
Proof.
  intros (G & [Rlo Rhi] & P).
  assert (Hc : 0 < scale (committedTransform s))
    by (unfold committedScaleOf in Rlo; lra).
  assert (D : duringPinchOf windowDim screenDim dims (committedTransform s) s).
  { split; [reflexivity|]. exact P. }
  apply (duringPinch_onChange windowDim screenDim imageAspect dims
           (committedTransform s) e s Hc max_ge_one) in D.
  destruct D as [Dct Dp]. unfold zoomWithinOf, committedScaleOf.
  rewrite Dct. fold (committedScaleOf s).
  split; [exact G|]. split; [split; assumption | exact Dp].
Qed.

Lemma zoomWithin_pinch_onEnd (s : State) :
  zoomWithin s -> zoomWithin (pinch_onEnd translationGrid scaleGrid s).
Proof.
  intros (G & [Rlo Rhi] & P).
  destruct (pinch_onEnd_scale translationGrid scaleGrid s) as [Es Ep].
  unfold zoomWithinOf. rewrite Es, Ep.
  split; [apply snap_idempotent|]. split; [|left; reflexivity].
  destruct P as [P|[Plo Phi]].
  - assert (E : 1 * pinchScale s * scale (committedTransform s) == committedScaleOf s)
      by (rewrite P; unfold committedScaleOf; ring).
    rewrite (snap_comp scaleGrid _ _ E), G. split; assumption.
  - assert (E : 1 * pinchScale s * scale (committedTransform s)
                == pinchScale s * committedScaleOf s)
      by (unfold committedScaleOf; ring).
    rewrite (snap_comp scaleGrid _ _ E). split.
    + rewrite <- (snap_one scaleGrid). apply snap_le. exact Plo.
    + apply snap_le. exact Phi.
Qed.

Lemma zoomWithin_pan_onEnd (s : State) :
  zoomWithin s -> zoomWithin (pan_onEnd translationGrid scaleGrid s).
Proof.
  intros H. apply (zoomWithin_same s); [reflexivity | | exact H].
  destruct H as (G & _ & _).
  change (committedScaleOf (pan_onEnd translationGrid scaleGrid s))
    with (snap scaleGrid (1 * committedScaleOf s)).
  assert (E : 1 * committedScaleOf s == committedScaleOf s) by ring.
  rewrite (snap_comp scaleGrid _ _ E). exact G.
Qed.

Lemma zoomWithin_pan_onChange (e : PanEvent) (s : State) :
  zoomWithin s ->
  zoomWithin (pan_onChange windowDim screenDim imageAspect (Some dims) e s).
Proof.
  intros H.
  destruct (pan_onChange_keeps windowDim screenDim imageAspect (Some dims) e s)
    as (A & B & _).
  cbv zeta in A, B.
  apply (zoomWithin_same s); [rewrite B; reflexivity | | exact H].
  unfold committedScaleOf. rewrite A. reflexivity.
Qed.

Lemma zoomWithin_handleCalls (cs : list PinchPanCall) :
  forall s, zoomWithin s ->
  zoomWithin
    (handleCalls windowDim screenDim imageAspect (Some dims)
                 translationGrid scaleGrid cs s).
Proof.
  induction cs as [|c cs IH]; intros s Hs; [exact Hs|].
  unfold handleCalls. cbn [fold_left]. apply IH.
  destruct c as [e|e| |e| ]; cbn [handleCall].
  - apply (zoomWithin_same s); [reflexivity | reflexivity | exact Hs].
  - apply zoomWithin_pinch_onChange. exact Hs.
  - apply zoomWithin_pinch_onEnd. exact Hs.
  - apply zoomWithin_pan_onChange. exact Hs.
  - apply zoomWithin_pan_onEnd. exact Hs.
Qed.

End Simultaneous.

(** X13.  When the image is at least as wide as the screen divided by
    [MAX_ORIGINAL_IMAGE_ZOOM], after any calls of the handlers of the pinch
    (start, change, end) and of the pan (change, end), in any order and
    number from the initial state, the committed scale and the displayed
    scale are both at least 1 and at most half a step of the rounding above
    the greatest committed scale. *)
Theorem pinch_pan_scale_bounds
    (windowDim screenDim : Dimensions) (imageAspect : option Q) (dims : Dimensions)
    (translationGrid scaleGrid : positive) (cs : list PinchPanCall) :
  0 < width (SCREEN windowDim screenDim) ->
  width (SCREEN windowDim screenDim) <= width dims * MAX_ORIGINAL_IMAGE_ZOOM ->
  let st' := handleCalls windowDim screenDim imageAspect (Some dims)
                         translationGrid scaleGrid cs initialState in
  let most := maxCommittedScaleOf windowDim screenDim dims
              + (1 # 2) / inject_Z (Zpos scaleGrid) in
  1 <= committedScaleOf st' /\ committedScaleOf st' <= most /\
  1 <= scale (animatedTransform st') /\ scale (animatedTransform st') <= most.
Proof.
  intros HW Hd. cbv zeta.
  pose proof (maxCommittedScale_ge_one windowDim screenDim dims HW Hd) as Hm.
  assert (I0 : zoomWithinOf windowDim screenDim scaleGrid dims initialState).
  { split; [apply snap_one|]. split; [|left; reflexivity].
    split; [apply Qle_refl|].
    change (committedScaleOf initialState) with 1.
    rewrite <- (snap_one scaleGrid) at 1. apply snap_le. exact Hm. }
  destruct (zoomWithin_handleCalls windowDim screenDim imageAspect dims
              translationGrid scaleGrid Hm cs initialState I0) as (_ & [Hlo Hhi] & P).
  set (st' := handleCalls _ _ _ _ _ _ cs initialState) in *.
  pose proof (snap_upper scaleGrid (maxCommittedScaleOf windowDim screenDim dims)) as U.
  assert (H0 : 0 <= (1 # 2) / inject_Z (Zpos scaleGrid)).
  { apply Qle_shift_div_l; [apply grid_positive | lra]. }
  assert (E : scale (animatedTransform st')
              == pinchScale st' * committedScaleOf st').
  { unfold committedScaleOf. generalize st'. intros s. components. ring. }
  split; [exact Hlo|]. split; [lra|].
  rewrite E. destruct P as [P|[Plo Phi]].
  - rewrite P. split; lra.
  - split; lra.
Qed.

(** ** Double taps *)

(** X14.  At rest, a double tap zooms to the scale that removes the black bars
    but to at least [MIN_DOUBLE_TAP_SCALE], unless the cap of the image's
    resolution is lower: the committed scale is never above the cap, is at
    least [MIN_DOUBLE_TAP_SCALE] when the cap allows it, and is the cap
    itself when the cap is at most [MIN_DOUBLE_TAP_SCALE]. *)
Theorem doubleTap_onEnd_scale_range
    (windowDim screenDim : Dimensions) (imageAspect : option Q) (aspect : Q)
    (dims : Dimensions) (e : TapEvent) (st : State) :
  imageAspect = Some aspect -> ~ aspect == 0 ->
  committedScaleOf st == 1 ->
  let s' := committedScaleOf
              (doubleTap_onEnd windowDim screenDim imageAspect (Some dims) e st) in
  let cap := maxCommittedScaleOf windowDim screenDim dims in
  s' <= cap /\
  (MIN_DOUBLE_TAP_SCALE <= cap -> MIN_DOUBLE_TAP_SCALE <= s') /\
  (cap <= MIN_DOUBLE_TAP_SCALE -> s' == cap).
Proof.
  intros Hk Hn Hs. cbv zeta.
  rewrite (doubleTap_onEnd_at_rest windowDim screenDim imageAspect dims aspect e st
             Hk Hn Hs).
  unfold doubleTapScaleOf, candidateScaleOf, Qmax3, maxCommittedScaleOf,
    MIN_DOUBLE_TAP_SCALE. cbv zeta.
  generalize (width dims / width (SCREEN windowDim screenDim) * MAX_ORIGINAL_IMAGE_ZOOM).
  generalize (aspect / (width (SCREEN windowDim screenDim)
                        / height (SCREEN windowDim screenDim))).
  generalize (width (SCREEN windowDim screenDim)
              / height (SCREEN windowDim screenDim) / aspect).
  intros q1 q2 m. name_minmax. repeat split; intros; lra.
Qed.

(** X15.  A second double tap undoes the first: from rest, when the scale the
    first one zooms to is not 1, two double taps (wherever they land) leave
    the committed transform at the identity. *)
Theorem doubleTap_twice_identity
    (windowDim screenDim : Dimensions) (imageAspect : option Q) (aspect : Q)
    (dims : Dimensions) (e1 e2 : TapEvent) (st : State) :
  imageAspect = Some aspect -> ~ aspect == 0 ->
  committedScaleOf st == 1 ->
  ~ doubleTapScaleOf windowDim screenDim aspect dims == 1 ->
  committedTransform
    (doubleTap_onEnd windowDim screenDim imageAspect (Some dims) e2
       (doubleTap_onEnd windowDim screenDim imageAspect (Some dims) e1 st))
  = createTransform.
Proof.
  intros Hk Hn Hs Hz.
  pose proof (doubleTap_onEnd_at_rest windowDim screenDim imageAspect dims aspect e1 st
                Hk Hn Hs) as E.
  set (st1 := doubleTap_onEnd windowDim screenDim imageAspect (Some dims) e1 st) in *.
  assert (Z : neqb (scale (committedTransform st1)) 1 = true).
  { apply neqb_true. unfold committedScaleOf in E. rewrite E.
    intros C. apply Hz. rewrite <- C. ring. }
  assert (T : truthyNumber imageAspect = Some aspect)
    by (apply truthyNumber_Some; split; assumption).
  unfold doubleTap_onEnd at 1. rewrite T. unfold readTransform. rewrite Z.
  reflexivity.
Qed.

(** ** A pinch about the centre *)

Section CentredPinch.

Variables windowDim screenDim : Dimensions.
Variable imageAspect : option Q.
Variable imageDimensions : option Dimensions.
Variables translationGrid scaleGrid : positive.

Local Abbreviation extra := (getExtraTranslationToStayInBounds windowDim screenDim imageAspect).

(** A transform without translation needs no extra translation. *)
Lemma extra_of_centred (t : TransformMatrix) :
  translateX t == 0 -> translateY t == 0 ->
  fst (extra t) == 0 /\ snd (extra t) == 0.
Proof.
  intros Hx Hy. unfold getExtraTranslationToStayInBounds.
  destruct (truthyNumber imageAspect) as [a|]; [|split; reflexivity].
  unfold readTransform. cbv zeta. cbn [fst snd].
  unfold clampTranslation. cbv zeta.
  generalize ((width (getScaledDimensions windowDim screenDim a (scale t))
               - width (SCREEN windowDim screenDim)) / 2).
  generalize ((height (getScaledDimensions windowDim screenDim a (scale t))
               - height (SCREEN windowDim screenDim)) / 2).
  intros hy hx. split; name_minmax; lra.
Qed.

(** What holds while a pinch about the centre, begun at the initial state,
    is in progress. *)
Lemma centred_onChange (e : PinchEvent) (s : State) :
  committedTransform s = createTransform ->
  panTranslation s = mkPosition 0 0 ->
  pinchTranslation s = mkPosition 0 0 ->
  x (pinchOrigin s) == 0 -> y (pinchOrigin s) == 0 ->
  let s' := pinch_onChange windowDim screenDim imageAspect imageDimensions e s in
  committedTransform s' = createTransform /\
  panTranslation s' = mkPosition 0 0 /\
  pinchTranslation s' = mkPosition 0 0 /\
  pinchOrigin s' = pinchOrigin s.
Proof.
  destruct s as [c p o ps tr].
  cbn [committedTransform panTranslation pinchTranslation pinchOrigin].
  intros Hc Hp Ht Hx Hy. subst c p tr. cbv zeta.
  unfold pinch_onChange. destruct imageDimensions as [dims|]; [|repeat split].
  unfold readTransform.
  cbn [set_pinchScale committedTransform panTranslation pinchOrigin pinchScale
       pinchTranslation].
  set (next := nextPinchScaleOf _ _ _ _ _).
  set (t := prependTransform _ _).
  assert (Tx : translateX t == 0)
    by (subst t; generalize next; intros q; destruct o as [ox oy];
        cbn [x y] in Hx, Hy; components; rewrite Hx; ring).
  assert (Ty : translateY t == 0)
    by (subst t; generalize next; intros q; destruct o as [ox oy];
        cbn [x y] in Hx, Hy; components; rewrite Hy; ring).
  destruct (extra_of_centred t Tx Ty) as [Dx Dy].
  destruct (extra t) as [dx dy]. cbn [fst snd] in Dx, Dy.
  apply neqb_false in Dx. apply neqb_false in Dy. rewrite Dx, Dy.
  cbn [orb]. repeat split.
Qed.

Lemma centred_changes (es : list PinchEvent) :
  forall s,
  committedTransform s = createTransform ->
  panTranslation s = mkPosition 0 0 ->
  pinchTranslation s = mkPosition 0 0 ->
  x (pinchOrigin s) == 0 -> y (pinchOrigin s) == 0 ->
  let s' := fold_left
              (fun s e => pinch_onChange windowDim screenDim imageAspect
                                         imageDimensions e s) es s in
  committedTransform s' = createTransform /\
  pinchTranslation s' = mkPosition 0 0 /\
  x (pinchOrigin s') == 0 /\ y (pinchOrigin s') == 0.
Proof.
  induction es as [|e es IH]; intros s Hc Hp Ht Hx Hy; cbv zeta.
  - repeat split; assumption.
  - cbn [fold_left].
    destruct (centred_onChange e s Hc Hp Ht Hx Hy) as (A & B & C & D).
    cbv zeta in A, B, C, D.
    apply IH; try assumption; rewrite D; assumption.
Qed.

Lemma snap_zero (g : positive) (v : Q) : v == 0 -> snap g v == 0.
Proof.
  intros H.
  assert (E : v == inject_Z 0 / inject_Z (Zpos g)).
  { rewrite H. pose proof (grid_positive g). field. lra. }
  rewrite (snap_comp g _ _ E), snap_on_grid.
  pose proof (grid_positive g). field. lra.
Qed.

Lemma centred_runPinch (g : PinchGesture) :
  focalX (pg_start g) == width (SCREEN windowDim screenDim) / 2 ->
  focalY (pg_start g) == height (SCREEN windowDim screenDim) / 2 ->
  let st' := runPinch windowDim screenDim imageAspect imageDimensions
                      translationGrid scaleGrid g initialState in
  translateX (committedTransform st') == 0 /\
  translateY (committedTransform st') == 0.
Proof.
  intros Fx Fy. cbv zeta. unfold runPinch.
  set (s0 := pinch_onStart windowDim screenDim (pg_start g) initialState).
  assert (Ox : x (pinchOrigin s0) == 0).
  { subst s0. unfold pinch_onStart.
    cbn [set_pinchOrigin pinchOrigin x]. rewrite Fx. ring. }
  assert (Oy : y (pinchOrigin s0) == 0).
  { subst s0. unfold pinch_onStart.
    cbn [set_pinchOrigin pinchOrigin y]. rewrite Fy. ring. }
  destruct (centred_changes (pg_changes g) s0 eq_refl eq_refl eq_refl Ox Oy)
    as (A & B & C & D).
  cbv zeta in A, B, C, D.
  set (s1 := fold_left _ _ _) in *.
  unfold pinch_onEnd. cbv zeta.
  cbn [set_committedTransform set_pinchScale set_pinchOrigin set_pinchTranslation
       committedTransform].
  rewrite A, B.
  destruct (pinchOrigin s1) as [ox oy]. cbn [x y] in C, D.
  generalize (pinchScale s1). intros q.
  unfold applyRounding. cbn [translateX translateY].
  split; apply snap_zero; components.
  - rewrite C. ring.
  - rewrite D. ring.
Qed.

End CentredPinch.

(** X16.  A pinch whose focal point is the centre of the screen, begun at the
    initial state, leaves the image centred whatever its changes: the
    committed translation is 0 on both axes. *)
Theorem pinch_about_centre_stays_centred
    (windowDim screenDim : Dimensions) (imageAspect : option Q)
    (imageDimensions : option Dimensions) (translationGrid scaleGrid : positive)
    (g : PinchGesture) :
  focalX (pg_start g) == width (SCREEN windowDim screenDim) / 2 ->
  focalY (pg_start g) == height (SCREEN windowDim screenDim) / 2 ->
  let st' := runPinch windowDim screenDim imageAspect imageDimensions
                      translationGrid scaleGrid g initialState in
  translateX (committedTransform st') == 0 /\
  translateY (committedTransform st') == 0.
Proof.
  intros Fx Fy. apply centred_runPinch; assumption.
Qed.

(** ** What the host has been told *)

Lemma last_cons_default (A : Type) (a d : A) (l : list A) :
  last (a :: l) d = last l a.
Proof.
  revert a d. induction l as [|b l IH]; intros a d; [reflexivity|].
  change (last (a :: b :: l) d) with (last (b :: l) d).
  rewrite (IH b d), (IH b a). reflexivity.
Qed.

Lemma runReaction_last_from (sts : list State) :
  forall p : bool,
    last (onZoomArgs (runReaction (Some p) sts)) p = last (map isScaledOf sts) p.
Proof.
  induction sts as [|st sts IH]; intros p; [reflexivity|].
  cbn [runReaction map]. rewrite onZoomArgs_app, reaction_onZoom.
  rewrite last_cons_default, <- IH.
  unfold differs. destruct (Bool.eqb (isScaledOf st) p) eqn:E; cbn [negb app].
  - apply Bool.eqb_prop in E. rewrite E. reflexivity.
  - rewrite last_cons_default. reflexivity.
Qed.

(** X17.  The host is never left with a stale value: after any evaluations of
    the reaction, the argument of the last [onZoom] call (or, when there was
    no call, the value the reaction had seen before) is the value computed
    from the last state; from the first evaluation on there always is a
    call, and the calls of [setIsScaled] carry the same arguments as those
    of [onZoom]. *)
Theorem zoom_reaction_in_sync :
  (forall (p : bool) (sts : list State),
     last (onZoomArgs (runReaction (Some p) sts)) p = last (map isScaledOf sts) p) /\
  (forall (st : State) (sts : list State) (d : bool),
     last (onZoomArgs (runReaction None (st :: sts))) d
     = last (map isScaledOf (st :: sts)) d /\
     onZoomArgs (runReaction None (st :: sts)) <> []) /\
  (forall (prev : option bool) (sts : list State),
     onZoomArgs (runReaction prev sts)
     = flat_map (fun c => match c with SetIsScaled b => [b] | _ => [] end)
                (runReaction prev sts)).
Proof.
  split; [|split].
  - intros p sts. apply runReaction_last_from.
  - intros st sts d. cbn [runReaction map].
    rewrite onZoomArgs_app, reaction_onZoom. cbn [differs app]. split.
    + rewrite !last_cons_default. apply runReaction_last_from.
    + discriminate.
  - intros prev sts. revert prev. induction sts as [|st sts IH]; intros prev.
    + reflexivity.
    + cbn [runReaction]. rewrite onZoomArgs_app, flat_map_app, <- IH.
      f_equal. unfold reaction, handleZoom.
      destruct (differs (isScaledOf st) prev); reflexivity.
Qed.

(** * The screen of a mute list *)

Section ProfileListFacts.

Import String.
Import ProfileList.

Lemma onToggleSubscribed_cases (remote : Remote) (l : ListModel) :
  onToggleSubscribed remote l
  = if isMuted l then
      if unsubscribe_ok remote
      then ([ListUnsubscribe; ToastShow toastUnsubscribed], Some tt)
      else ([ListUnsubscribe; ToastShow toastFailed; LogError logFailed], Some tt)
    else
      if subscribe_ok remote then
        if subscribeMuteList_ok remote
        then ([ListSubscribe; SubscribeMuteList (uri l); ToastShow toastSubscribed],
              Some tt)
        else ([ListSubscribe; SubscribeMuteList (uri l);
               ToastShow toastFailed; LogError logFailed], Some tt)
      else ([ListSubscribe; ToastShow toastFailed; LogError logFailed], Some tt).
Proof.
  unfold onToggleSubscribed.
  destruct (isMuted l), (unsubscribe_ok remote), (subscribe_ok remote),
    (subscribeMuteList_ok remote); reflexivity.
Qed.

(** X18.  Toggling the subscription never throws and tells the user exactly once
    how it went, whatever the remote calls do; the error is logged exactly
    when a call was rejected, and then the toast is the one of the
    failure. *)
Theorem onToggleSubscribed_one_toast (remote : Remote) (l : ListModel) :
  let r := onToggleSubscribed remote l in
  snd r = Some tt /\
  List.length (filter isToast (fst r)) = 1%nat /\
  (In (LogError logFailed) (fst r) <-> In (ToastShow toastFailed) (fst r)) /\
  (In (LogError logFailed) (fst r) <->
   (if isMuted l then unsubscribe_ok remote = false
    else subscribe_ok remote = false \/ subscribeMuteList_ok remote = false)).
Proof.
  cbv zeta. rewrite onToggleSubscribed_cases.
  destruct (isMuted l), (unsubscribe_ok remote), (subscribe_ok remote),
    (subscribeMuteList_ok remote); cbn;
    (split; [reflexivity|]); (split; [reflexivity|]);
    split; split; intros H;
    repeat match goal with
      | H : _ \/ _ |- _ => destruct H
      | H : False |- _ => destruct H
      | H : _ = _ |- _ => discriminate H
      end; auto.
Qed.

(** X19.  Toggling goes no further than the first rejection:
    [subscribeMuteList] is called only on a list
    that is not muted and only after [list.subscribe] resolved, with the
    uri of the list; a muted list is only unsubscribed; and the toast of a
    success is shown only when every call resolved. *)
Theorem onToggleSubscribed_calls (remote : Remote) (l : ListModel) :
  let tr := fst (onToggleSubscribed remote l) in
  (forall u, In (SubscribeMuteList u) tr ->
     u = uri l /\ isMuted l = false /\ subscribe_ok remote = true) /\
  (In ListUnsubscribe tr <-> isMuted l = true) /\
  (In ListSubscribe tr <-> isMuted l = false) /\
  (In (ToastShow toastSubscribed) tr <->
     isMuted l = false /\ subscribe_ok remote = true /\
     subscribeMuteList_ok remote = true) /\
  (In (ToastShow toastUnsubscribed) tr <->
     isMuted l = true /\ unsubscribe_ok remote = true).
Proof.
  cbv zeta. rewrite onToggleSubscribed_cases.
  destruct (isMuted l), (unsubscribe_ok remote), (subscribe_ok remote),
    (subscribeMuteList_ok remote); cbn;
    repeat split; intros;
    repeat match goal with
      | H : _ \/ _ |- _ => destruct H
      | H : _ /\ _ |- _ => destruct H
      | H : False |- _ => destruct H
      | H : SubscribeMuteList _ = SubscribeMuteList _ |- _ => inversion H; clear H
      | H : _ = _ |- _ => discriminate H
      end; auto.
Qed.

(** X20.  Confirming the deletion navigates exactly once after the list was
    deleted, back when the navigator can go back and to Home otherwise; when
    the deletion is rejected the handler throws and does not navigate. *)
Theorem onPressConfirm_navigation (remote : Remote) (canGoBack : bool) :
  let r := onPressConfirm remote canGoBack in
  hd_error (fst r) = Some ListDelete /\
  (delete_ok remote = true ->
     snd r = Some tt /\
     filter isNavigation (fst r)
     = [if canGoBack then GoBack else Navigate "Home"%string]) /\
  (delete_ok remote = false ->
     snd r = None /\ filter isNavigation (fst r) = []).
Proof.
  cbv zeta. unfold onPressConfirm.
  destruct (delete_ok remote), canGoBack; cbn;
    (split; [reflexivity|]); split; intros H;
    try discriminate H; split; reflexivity.
Qed.

(** X21.  The header never offers to edit the list; it offers to delete it
    exactly to the owner; and it always ends with exactly one button that
    toggles the subscription, labelled by the state of the subscription. *)
Theorem renderHeaderBtn_buttons (l : ListModel) :
  let bs := renderHeaderBtn l in
  (forall b, In b bs -> onPress b <> PressEditList) /\
  (In PressDeleteList (map onPress bs) <-> isOwner l = true) /\
  filter (fun b => match onPress b with ToggleSubscribed => true | _ => false end) bs
  = [last bs (mkButton "primary"%string "Subscribe & Mute"%string ToggleSubscribed)] /\
  labels bs
  = (if isOwner l then ["Delete List"%string] else [])
    ++ [if isMuted l then "Unsubscribe"%string else "Subscribe & Mute"%string].
Proof.
  cbv zeta. unfold renderHeaderBtn, renderIf, labels.
  destruct (isOwner l), (isMuted l); cbn;
    repeat split; intros;
    repeat match goal with
      | H : _ \/ _ |- _ => destruct H
      | H : False |- _ => destruct H
      | H : _ = _ |- _ => first [discriminate H | subst]
      end; cbn; auto; try discriminate.
Qed.

End ProfileListFacts.

(** * The further theorems at concrete inputs *)

Lemma clampTranslation_fits_witness :
  500 <= 1000 /\ clampTranslation 800 500 1000 == 0.
Proof.
  assert (H : 500 <= 1000) by (vm_compute; discriminate).
  split; [exact H | exact (clampTranslation_fits 800 500 1000 H)].
Defined.

Lemma clampTranslation_monotone_witness :
  100 <= 800 /\ clampTranslation 100 2000 1000 <= clampTranslation 800 2000 1000.
Proof.
  assert (H : 100 <= 800) by (vm_compute; discriminate).
  split; [exact H | exact (clampTranslation_monotone 100 800 2000 1000 H)].
Defined.

Lemma getScaledDimensions_contained_witness :
  0 < width (SCREEN tallWindow tallScreen) /\
  0 < height (SCREEN tallWindow tallScreen) /\
  0 < 2 /\ 0 <= 3 /\
  width (getScaledDimensions tallWindow tallScreen 2 3)
  <= 3 * width (SCREEN tallWindow tallScreen).
Proof.
  assert (S : 0 <= 3) by (vm_compute; discriminate).
  split; [reflexivity|]. split; [reflexivity|]. split; [reflexivity|].
  split; [exact S|].
  exact (proj1 (getScaledDimensions_contained tallWindow tallScreen 2 3
                  eq_refl eq_refl eq_refl S)).
Defined.

Lemma two_nonzero : ~ 2 == 0.
Proof. intros H. discriminate H. Defined.

Lemma pan_onChange_stays_in_bounds_witness :
  let st := set_committedTransform (mkTransform 0 0 2) initialState in
  ~ 2 == 0 /\
  inBounds tallWindow tallScreen 2
    (animatedTransform
       (pan_onChange tallWindow tallScreen (Some 2) (Some largeImage)
                     (mkPanEvent 5000 (-3000)) st)).
Proof.
  cbv zeta. split; [exact two_nonzero|].
  exact (pan_onChange_stays_in_bounds tallWindow tallScreen (Some 2) 2 largeImage
           (mkPanEvent 5000 (-3000)) _ eq_refl two_nonzero).
Defined.

Lemma pinch_onChange_stays_in_bounds_witness :
  let st := set_committedTransform (mkTransform 400 (-300) 2) initialState in
  ~ 2 == 0 /\
  inBounds tallWindow tallScreen 2
    (animatedTransform
       (pinch_onChange tallWindow tallScreen (Some 2) (Some largeImage)
                       (mkPinchEvent 900 100 (1 # 2)) st)).
Proof.
  cbv zeta. split; [exact two_nonzero|].
  exact (pinch_onChange_stays_in_bounds tallWindow tallScreen (Some 2) 2 largeImage
           (mkPinchEvent 900 100 (1 # 2)) _ eq_refl two_nonzero).
Defined.

Lemma doubleTap_onEnd_lands_in_bounds_witness :
  ~ 2 == 0 /\ committedScaleOf initialState == 1 /\
  inBounds tallWindow tallScreen 2
    (committedTransform
       (doubleTap_onEnd tallWindow tallScreen (Some 2) (Some largeImage)
                        (mkTapEvent 990 10) initialState)).
Proof.
  split; [exact two_nonzero|]. split; [reflexivity|].
  exact (doubleTap_onEnd_lands_in_bounds tallWindow tallScreen (Some 2) 2 largeImage
           (mkTapEvent 990 10) initialState eq_refl two_nonzero (Qeq_refl 1)).
Defined.

Lemma pan_onChange_centred_when_unzoomed_witness :
  0 <= pinchScale initialState * committedScaleOf initialState <= 1 /\
  translateX
    (animatedTransform
       (pan_onChange tallWindow tallScreen (Some 2) (Some largeImage)
                     (mkPanEvent 300 400) initialState)) == 0.
Proof.
  assert (H : 0 <= pinchScale initialState * committedScaleOf initialState <= 1)
    by (split; vm_compute; discriminate).
  split; [exact H|].
  exact (proj1 (pan_onChange_centred_when_unzoomed tallWindow tallScreen (Some 2) 2
                  largeImage (mkPanEvent 300 400) initialState
                  eq_refl eq_refl eq_refl eq_refl H)).
Defined.

Lemma pinch_onEnd_keeps_display_witness :
  panTranslation pinchingState = mkPosition 0 0 /\
  sameTransform (animatedTransform (pinch_onEnd 1 200 pinchingState))
                (applyRounding 1 200 (animatedTransform pinchingState)).
Proof.
  split; [reflexivity|].
  exact (pinch_onEnd_keeps_display 1 200 pinchingState eq_refl).
Defined.

Lemma pan_onEnd_keeps_display_witness :
  pinchScale panningState = 1 /\
  sameTransform (animatedTransform (pan_onEnd 1 200 panningState))
                (applyRounding 1 200 (animatedTransform panningState)).
Proof.
  split; [reflexivity|].
  exact (pan_onEnd_keeps_display 1 200 panningState eq_refl eq_refl eq_refl).
Defined.

Lemma runPan_keeps_scale_witness :
  let st := set_committedTransform (mkTransform 0 0 (5 # 2)) initialState in
  snap 200 (committedScaleOf st) == committedScaleOf st /\
  committedScaleOf
    (runPan tallWindow tallScreen (Some 2) (Some largeImage) 1 200
            [mkPanEvent 10 10; mkPanEvent 4000 (-20)] st)
  == committedScaleOf st.
Proof.
  cbv zeta.
  assert (H : snap 200 (committedScaleOf
                          (set_committedTransform (mkTransform 0 0 (5 # 2)) initialState))
              == committedScaleOf
                   (set_committedTransform (mkTransform 0 0 (5 # 2)) initialState))
    by (vm_compute; reflexivity).
  split; [exact H|].
  exact (proj1 (runPan_keeps_scale tallWindow tallScreen (Some 2) (Some largeImage) 1 200
                  [mkPanEvent 10 10; mkPanEvent 4000 (-20)] _ H)).
Defined.

Lemma pinch_onChange_follows_event_witness :
  minPinchScaleOf (committedScaleOf initialState) <= 2 /\
  2 <= maxPinchScaleOf tallWindow tallScreen largeImage (committedScaleOf initialState) /\
  pinchScale (pinch_onChange tallWindow tallScreen (Some 2) (Some largeImage)
                             (mkPinchEvent 500 950 2) initialState) == 2.
Proof.
  assert (L : minPinchScaleOf (committedScaleOf initialState) <= 2)
    by (vm_compute; discriminate).
  assert (U : 2 <= maxPinchScaleOf tallWindow tallScreen largeImage
                     (committedScaleOf initialState))
    by (vm_compute; discriminate).
  split; [exact L|]. split; [exact U|].
  exact (pinch_onChange_follows_event tallWindow tallScreen (Some 2) largeImage
           (mkPinchEvent 500 950 2) initialState L U).
Defined.

Lemma pinch_pan_scale_bounds_witness :
  let cs := [PinchStart (mkPinchEvent 500 950 1); PinchChange (mkPinchEvent 500 950 3);
             PanChange (mkPanEvent 200 (-100)); PanEnd;
             PinchChange (mkPinchEvent 400 900 9); PanChange (mkPanEvent 5 5);
             PinchEnd; PanEnd; PinchEnd] in
  0 < width (SCREEN tallWindow tallScreen) /\
  width (SCREEN tallWindow tallScreen) <= width largeImage * MAX_ORIGINAL_IMAGE_ZOOM /\
  1 <= committedScaleOf
         (handleCalls tallWindow tallScreen (Some 2) (Some largeImage) 1 200
                      cs initialState).
Proof.
  cbv zeta.
  assert (M : width (SCREEN tallWindow tallScreen)
              <= width largeImage * MAX_ORIGINAL_IMAGE_ZOOM)
    by (vm_compute; discriminate).
  split; [reflexivity|]. split; [exact M|].
  exact (proj1 (pinch_pan_scale_bounds tallWindow tallScreen (Some 2) largeImage
                  1 200 _ eq_refl M)).
Defined.

Lemma doubleTap_onEnd_scale_range_witness :
  ~ 2 == 0 /\ committedScaleOf initialState == 1 /\
  committedScaleOf
    (doubleTap_onEnd tallWindow tallScreen (Some 2) (Some largeImage)
                     (mkTapEvent 10 10) initialState)
  <= maxCommittedScaleOf tallWindow tallScreen largeImage.
Proof.
  split; [exact two_nonzero|]. split; [reflexivity|].
  exact (proj1 (doubleTap_onEnd_scale_range tallWindow tallScreen (Some 2) 2 largeImage
                  (mkTapEvent 10 10) initialState eq_refl two_nonzero (Qeq_refl 1))).
Defined.

Lemma doubleTap_twice_identity_witness :
  ~ doubleTapScaleOf tallWindow tallScreen 2 largeImage == 1 /\
  committedTransform
    (doubleTap_onEnd tallWindow tallScreen (Some 2) (Some largeImage) (mkTapEvent 800 30)
       (doubleTap_onEnd tallWindow tallScreen (Some 2) (Some largeImage)
                        (mkTapEvent 10 10) initialState))
  = createTransform.
Proof.
  assert (Z : ~ doubleTapScaleOf tallWindow tallScreen 2 largeImage == 1)
    by (intros H; vm_compute in H; discriminate H).
  split; [exact Z|].
  exact (doubleTap_twice_identity tallWindow tallScreen (Some 2) 2 largeImage
           (mkTapEvent 10 10) (mkTapEvent 800 30) initialState
           eq_refl two_nonzero (Qeq_refl 1) Z).
Defined.

Lemma pinch_about_centre_stays_centred_witness :
  let g := mkPinchGesture (mkPinchEvent 500 950 1)
                          [mkPinchEvent 480 900 3; mkPinchEvent 520 990 (1 # 2)] in
  focalX (pg_start g) == width (SCREEN tallWindow tallScreen) / 2 /\
  focalY (pg_start g) == height (SCREEN tallWindow tallScreen) / 2 /\
  translateX
    (committedTransform
       (runPinch tallWindow tallScreen (Some 2) (Some largeImage) 1 200 g initialState))
  == 0.
Proof.
  cbv zeta. split; [reflexivity|]. split; [reflexivity|].
  exact (proj1 (pinch_about_centre_stays_centred tallWindow tallScreen (Some 2)
                  (Some largeImage) 1 200
                  (mkPinchGesture (mkPinchEvent 500 950 1)
                     [mkPinchEvent 480 900 3; mkPinchEvent 520 990 (1 # 2)])
                  eq_refl eq_refl)).
Defined.

Lemma onToggleSubscribed_calls_witness :
  In (ProfileList.SubscribeMuteList (ProfileList.uri ProfileList.sampleList))
     (fst (ProfileList.onToggleSubscribed ProfileList.sampleRemote ProfileList.sampleList)) /\
  ProfileList.isMuted ProfileList.sampleList = false /\
  ProfileList.subscribe_ok ProfileList.sampleRemote = true.
Proof.
  assert (H : In (ProfileList.SubscribeMuteList (ProfileList.uri ProfileList.sampleList))
                 (fst (ProfileList.onToggleSubscribed
                         ProfileList.sampleRemote ProfileList.sampleList)))
    by (right; left; reflexivity).
  split; [exact H|].
  exact (proj2 (proj1 (onToggleSubscribed_calls
                         ProfileList.sampleRemote ProfileList.sampleList) _ H)).
Defined.

Lemma onPressConfirm_navigation_witness :
  let remote := ProfileList.mkRemote true true true false in
  ProfileList.delete_ok remote = false /\
  snd (ProfileList.onPressConfirm remote true) = None /\
  filter ProfileList.isNavigation (fst (ProfileList.onPressConfirm remote true)) = [].
Proof.
  cbv zeta. split; [reflexivity|].
  exact (proj2 (proj2 (onPressConfirm_navigation
                         (ProfileList.mkRemote true true true false) true)) eq_refl).
Defined.

Lemma renderHeaderBtn_buttons_witness :
  let b := hd (ProfileList.mkButton ProfileList.toastFailed ProfileList.toastFailed
                                    ProfileList.PressEditList)
              (ProfileList.renderHeaderBtn ProfileList.sampleList) in
  In b (ProfileList.renderHeaderBtn ProfileList.sampleList) /\
  ProfileList.onPress b <> ProfileList.PressEditList.
Proof.
  cbv zeta.
  assert (H : In (hd (ProfileList.mkButton ProfileList.toastFailed ProfileList.toastFailed
                                           ProfileList.PressEditList)
                     (ProfileList.renderHeaderBtn ProfileList.sampleList))
                 (ProfileList.renderHeaderBtn ProfileList.sampleList))
    by (left; reflexivity).
  split; [exact H|].
  exact (proj1 (renderHeaderBtn_buttons ProfileList.sampleList) _ H).
Defined.
